(** * trie-viz: the trie and its diagram renderer

    A shallow embedding of [src/trie.ts] and of the stroke-width and
    render-scheduling behaviour of [src/visualizer.ts], followed by the
    properties of the specification that were checked against it. *)

From stdpp Require Import gmap list sorting strings.
From Stdlib Require Import NArith QArith.

#[local] Open Scope N_scope.
#[local] Open Scope stdpp_scope.
#[local] Open Scope list_scope.

(** ** JavaScript strings

    A JavaScript string is a sequence of 16-bit code units.  Code units are
    kept as [N]; nothing below depends on the 16-bit bound. *)

Abbreviation jsstring := (list N).

(** String literals of the source, written in ASCII. *)
Definition lit (s : string) : jsstring :=
  map Ascii.N_of_ascii (String.list_ascii_of_string s).

Definition is_high_surrogate (u : N) : bool := (0xD800 <=? u) && (u <=? 0xDBFF).
Definition is_low_surrogate (u : N) : bool := (0xDC00 <=? u) && (u <=? 0xDFFF).

(** [for (const char of word)]: the string iterator yields one string per
    code point, so a high surrogate directly followed by a low surrogate is
    yielded as one two-unit string, and every other code unit on its own. *)
Fixpoint chars (s : jsstring) : list jsstring :=
  match s with
  | [] => []
  | u :: rest =>
      match rest with
      | v :: rest' =>
          if is_high_surrogate u && is_low_surrogate v
          then [u; v] :: chars rest'
          else [u] :: chars rest
      | [] => [[u]]
      end
  end.

(** [a < b] on strings: lexicographic on code units, a proper prefix first. *)
Fixpoint str_ltb (a b : jsstring) : bool :=
  match a, b with
  | _, [] => false
  | [], _ :: _ => true
  | x :: a', y :: b' =>
      if x <? y then true else if y <? x then false else str_ltb a' b'
  end.

(** The order [Array.prototype.sort] uses without a comparator: [a] may stay
    before [b] unless [b < a]. *)
Definition str_le (a b : jsstring) : Prop := str_ltb b a = false.

#[global] Instance str_le_dec a b : Decision (str_le a b).
Proof. unfold str_le. apply _. Defined.

(** [[...keys].sort()] *)
Definition sort (keys : list jsstring) : list jsstring := merge_sort str_le keys.

(** ** The trie ([src/trie.ts]) *)

(** [children] is a [Map] from one-character strings to nodes.  A [Map]
    also keeps the order in which its keys were added; the trie reads that
    order only through [keys()], which it sorts at once, and through
    [values()] in [nodeCount], which counts (lemma [sort_any_order]).  So
    the children are kept as a finite map. *)
#[warnings="-register-all"]
Inductive InternalNode : Type := mkInternalNode {
  children : gmap jsstring InternalNode;
  isTerminal : bool;
  words : list jsstring
}.

Definition createNode : InternalNode :=
  {| children := ∅; isTerminal := false; words := [] |}.

Module Hier.
(** [TrieHierarchyNode], the exported form. *)
#[warnings="-register-all"]
Inductive TrieHierarchyNode : Type := mk {
  id : jsstring;
  char : jsstring;
  path : jsstring;
  isTerminal : bool;
  words : list jsstring;
  children : list TrieHierarchyNode
}.
End Hier.
Abbreviation TrieHierarchyNode := Hier.TrieHierarchyNode.

(** The body of [insert] from the node reached so far: the rest of the
    [for] loop over the remaining characters [cs], then the terminal test.
    The in-place updates of the source are returned as the updated node;
    the boolean is the value [insert] returns. *)
Fixpoint insert_node (node : InternalNode) (cs : list jsstring) (word : jsstring)
  : InternalNode * bool :=
  match cs with
  | [] =>
      if isTerminal node then (node, false)
      else ({| children := children node; isTerminal := true;
               words := words node ++ [word] |}, true)
  | c :: cs' =>
      let kids :=
        match children node !! c with
        | Some _ => children node
        | None => <[c := createNode]> (children node)
        end in
      let child := default createNode (kids !! c) in
      let '(child', r) := insert_node child cs' word in
      ({| children := <[c := child']> kids; isTerminal := isTerminal node;
          words := words node |}, r)
  end.

(** [walk] of [nodeCount]: the number of times [count++] runs. *)
Fixpoint walk (node : InternalNode) : nat :=
  S (map_fold (λ _ child count, walk child + count)%nat 0%nat (children node)).

(** The node reached from [node] along the characters [cs], if all of them
    are there. *)
Fixpoint find_node (node : InternalNode) (cs : list jsstring) : option InternalNode :=
  match cs with
  | [] => Some node
  | c :: cs' =>
      match children node !! c with
      | Some child => find_node child cs'
      | None => None
      end
  end.

(** The node at the end of [cs] exists and is marked terminal. *)
Definition terminal_at (node : InternalNode) (cs : list jsstring) : bool :=
  from_option isTerminal false (find_node node cs).

(** The child [node.children.get(c)], a new node if there is none. *)
Definition child_at (node : InternalNode) (c : jsstring) : InternalNode :=
  default createNode (children node !! c).

(** The id of the root in the export. *)
Definition root_id : jsstring := lit "__root__".

(** [convert] of [toHierarchy].  The recursive calls are made on the map of
    children ([convert <$> children node]) and then looked up key by key in
    sorted order, which is [convert(node.children.get(key)!, key, path + key)]
    of the source (lemma [convert_children]). *)
Fixpoint convert (node : InternalNode) (char path : jsstring) {struct node}
  : TrieHierarchyNode :=
  let sortedKeys := sort (map fst (map_to_list (children node))) in
  let converted := convert <$> children node in
  let children :=
    omap (λ key, (λ conv, conv key (path ++ key)) <$> converted !! key) sortedKeys in
  {| Hier.id := match path with [] => root_id | _ => path end;
     Hier.char := char;
     Hier.path := path;
     Hier.isTerminal := isTerminal node;
     Hier.words := words node;
     Hier.children := children |}.

Module Trie.

Record Trie : Type := mk { root : InternalNode; _words : list jsstring }.

(** [new Trie()] *)
Definition new : Trie := {| root := createNode; _words := [] |}.

(** [insert(word)]: the trie after the call and the returned boolean. *)
Definition insert (word : jsstring) (t : Trie) : Trie * bool :=
  match word with
  | [] => (t, false)
  | _ =>
      let '(root', added) := insert_node (root t) (chars word) word in
      if added
      then ({| root := root'; _words := _words t ++ [word] |}, true)
      else ({| root := root'; _words := _words t |}, false)
  end.

Definition words (t : Trie) : list jsstring := _words t.

Definition wordCount (t : Trie) : nat := length (_words t).

Definition nodeCount (t : Trie) : nat := walk (root t).

Definition toHierarchy (t : Trie) : TrieHierarchyNode := convert (root t) [] [].

Definition clear (t : Trie) : Trie := {| root := createNode; _words := [] |}.

(** [word] is stored: the node at the end of its characters is marked
    terminal. *)
Definition stored (word : jsstring) (t : Trie) : bool :=
  terminal_at (root t) (chars word).

(** A sequence of [insert] calls, left to right, with the returned
    booleans. *)
Fixpoint insert_all (ws : list jsstring) (t : Trie) : Trie * list bool :=
  match ws with
  | [] => (t, [])
  | w :: ws' =>
      let '(t1, r) := insert w t in
      let '(t2, rs) := insert_all ws' t1 in
      (t2, r :: rs)
  end.

End Trie.

(** Every node of an export: the node itself and the nodes below it. *)
Fixpoint nodes (h : TrieHierarchyNode) : list TrieHierarchyNode :=
  h :: mjoin (nodes <$> Hier.children h).

(** [route_to h r n]: from [h], going each time to a child, one passes the
    nodes [r] and ends at [n] (the last of [r], or [h] itself). *)
Inductive route_to (h : TrieHierarchyNode)
  : list TrieHierarchyNode → TrieHierarchyNode → Prop :=
| route_here : route_to h [] h
| route_step r m c :
    route_to h r m → c ∈ Hier.children m → route_to h (r ++ [c]) c.

(** A trie node reached by the prefix [p] carries [p] as its only word if it
    is terminal and no word otherwise; [labelled p node] says so of every
    node from [node] down, when [node] is reached by [p]. *)
Definition node_ok (p : jsstring) (node : InternalNode) : Prop :=
  words node = if isTerminal node then [p] else [].

Definition labelled (p : jsstring) (node : InternalNode) : Prop :=
  ∀ cs node', find_node node cs = Some node' → node_ok (p ++ concat cs) node'.

(** The tries a program can build. *)
Inductive reachable : Trie.Trie → Prop :=
| reach_new : reachable Trie.new
| reach_insert word t : reachable t → reachable (Trie.insert word t).1
| reach_clear t : reachable t → reachable (Trie.clear t).

(** ** The diagram ([src/visualizer.ts])

    Of the retained scene only what [highlightPath] and [clearHighlights]
    read and write is kept: which elements the two layers hold, the datum
    bound to each, the order of the shapes inside a node's [g], and every
    [stroke-width].  Layout, colours, radii and opacities are written by the
    render pass and read by nothing here. *)

Module Svg.

(** The children of a node's [g]. *)
Inductive Shape : Type :=
| circle (stroke_width : Q)
| text.

(** A [g] of the node layer with the [data] of its bound [HNode].
    [leaving] is set while an exit transition that ends in [remove()] is
    pending on the element. *)
Record G : Type := mkG {
  data : TrieHierarchyNode;
  shapes : list Shape;
  leaving : bool
}.

(** An [HLink] as far as it is read: the [data] of its two ends. *)
Record Link : Type := mkLink {
  source : TrieHierarchyNode;
  target : TrieHierarchyNode
}.

(** A [path] of the link layer. *)
Record Path : Type := mkPath {
  link : Link;
  stroke_width : Q;
  path_leaving : bool
}.

End Svg.

(** *** The library calls the renderer makes

    [d3.hierarchy], [selection.data] with a key, [enter], [exit], [append],
    [insert] and [select], as d3 documents them. *)

Section levels.
Context {A : Type}.

Fixpoint merge_levels (a b : list (list A)) : list (list A) :=
  match a, b with
  | [], _ => b
  | _, [] => a
  | x :: a', y :: b' => (x ++ y) :: merge_levels a' b'
  end.
End levels.

(** The nodes of [d3.hierarchy(data)] level by level, each with the data of
    its parent: [node.each] visits them breadth first. *)
Fixpoint levels (parent : option TrieHierarchyNode) (n : TrieHierarchyNode)
  : list (list (option TrieHierarchyNode * TrieHierarchyNode)) :=
  [(parent, n)]
  :: foldr merge_levels [] (map (levels (Some n)) (Hier.children n)).

(** [root.descendants()] *)
Definition descendants (data : TrieHierarchyNode) : list TrieHierarchyNode :=
  map snd (concat (levels None data)).

(** [root.links()] *)
Definition links (data : TrieHierarchyNode) : list Svg.Link :=
  omap (λ '(p, n), (λ s, Svg.mkLink s n) <$> p) (concat (levels None data)).

(** [selection.data(values, key)] and what the renderer does with the three
    selections it yields. *)
Section data_join.
Context {E D : Type} (ekey : E → jsstring) (dkey : D → jsstring).

(** The first element of the group for each key; an element whose key is
    already taken is left to the exit selection. *)
Fixpoint node_by_key (els : list E) (i : nat) (m : gmap jsstring nat)
  : gmap jsstring nat :=
  match els with
  | [] => m
  | e :: els' =>
      node_by_key els' (S i)
        (match m !! ekey e with Some _ => m | None => <[ekey e := i]> m end)
  end.

(** Each datum with the index of the element it is joined to, if any: a
    key joins once, a datum that finds no element enters. *)
Fixpoint bind_key (data : list D) (m : gmap jsstring nat) : list (D * option nat) :=
  match data with
  | [] => []
  | d :: data' =>
      match m !! dkey d with
      | Some i => (d, Some i) :: bind_key data' (delete (dkey d) m)
      | None => (d, None) :: bind_key data' m
      end
  end.

(** The element an entering datum is inserted before: the next joined
    element in data order ([_next]). *)
Fixpoint with_next (slots : list (D * option nat))
  : list (D * option nat * option nat) :=
  match slots with
  | [] => []
  | (d, Some i) :: slots' => (d, Some i, None) :: with_next slots'
  | (d, None) :: slots' =>
      (d, None, head (omap snd slots')) :: with_next slots'
  end.

(** The datum joined to element [i]. *)
Definition joined (slots : list (D * option nat)) (i : nat) : option D :=
  fst <$> head (filter (λ s, s.2 = Some i) slots).

Context (enter : D → E) (update : D → E → E) (exit : E → E).

Definition entering (slots : list (D * option nat * option nat)) (next : option nat)
  : list E :=
  omap (λ '(d, at_, nxt),
          match at_ with
          | Some _ => None
          | None => if decide (nxt = next) then Some (enter d) else None
          end) slots.

(** The group after the join: joined elements updated in place, the others
    left to exit, entering elements put before their [_next] or at the
    end. *)
Definition reconcile (els : list E) (data : list D) : list E :=
  let slots := bind_key data (node_by_key els 0 ∅) in
  let nexts := with_next slots in
  concat (imap (λ i e,
                  entering nexts (Some i) ++
                  [match joined slots i with
                   | Some d => update d e
                   | None => exit e
                   end]) els)
  ++ entering nexts None.
End data_join.

(** *** The renderer *)

Module TrieVisualizer.

(** [renders] counts the render passes run so far; it is the only part of
    the state that is not in the source. *)
Record TrieVisualizer : Type := mk {
  trie : Trie.Trie;
  linkGroup : list Svg.Path;
  nodeGroup : list Svg.G;
  renders : nat
}.

(** The constructor: an empty trie and two empty layers. *)
Definition new : TrieVisualizer :=
  {| trie := Trie.new; linkGroup := []; nodeGroup := []; renders := 0 |}.

Definition is_circle (s : Svg.Shape) : bool :=
  match s with Svg.circle _ => true | Svg.text => false end.

(** [g.insert('circle', 'circle')]: before the first circle. *)
Fixpoint insert_before_circle (ring : Svg.Shape) (ss : list Svg.Shape)
  : list Svg.Shape :=
  match ss with
  | [] => [ring]
  | s :: ss' => if is_circle s then ring :: s :: ss'
                else s :: insert_before_circle ring ss'
  end.

(** "Add ring to newly terminal nodes", run on [merged]. *)
Definition add_ring (g : Svg.G) : Svg.G :=
  if Hier.isTerminal (Svg.data g)
     && (length (filter (λ s, is_circle s = true) (Svg.shapes g)) =? 1)%nat
  then {| Svg.data := Svg.data g;
          Svg.shapes := insert_before_circle (Svg.circle 2) (Svg.shapes g);
          Svg.leaving := Svg.leaving g |}
  else g.

(** An entering node: the ring if terminal, the main circle, the label. *)
Definition enter_node (d : TrieHierarchyNode) : Svg.G :=
  add_ring
    {| Svg.data := d;
       Svg.shapes :=
         (if Hier.isTerminal d then [Svg.circle 2] else []) ++
         [Svg.circle (if bool_decide (Hier.id d = root_id) then 2 else 2.5);
          Svg.text];
       Svg.leaving := false |}.

(** A joined node: the new datum is bound, the new transition replaces a
    pending exit, the shapes stay. *)
Definition update_node (d : TrieHierarchyNode) (g : Svg.G) : Svg.G :=
  add_ring {| Svg.data := d; Svg.shapes := Svg.shapes g; Svg.leaving := false |}.

Definition exit_node (g : Svg.G) : Svg.G :=
  {| Svg.data := Svg.data g; Svg.shapes := Svg.shapes g; Svg.leaving := true |}.

Definition enter_link (l : Svg.Link) : Svg.Path :=
  {| Svg.link := l; Svg.stroke_width := 2.5; Svg.path_leaving := false |}.

Definition update_link (l : Svg.Link) (p : Svg.Path) : Svg.Path :=
  {| Svg.link := l; Svg.stroke_width := Svg.stroke_width p;
     Svg.path_leaving := false |}.

Definition exit_link (p : Svg.Path) : Svg.Path :=
  {| Svg.link := Svg.link p; Svg.stroke_width := Svg.stroke_width p;
     Svg.path_leaving := true |}.

Definition link_key (l : Svg.Link) : jsstring := Hier.id (Svg.target l).

Definition render (v : TrieVisualizer) : TrieVisualizer :=
  let data := Trie.toHierarchy (trie v) in
  {| trie := trie v;
     linkGroup :=
       reconcile (λ p, link_key (Svg.link p)) link_key
         enter_link update_link exit_link (linkGroup v) (links data);
     nodeGroup :=
       reconcile (λ g, Hier.id (Svg.data g)) Hier.id
         enter_node update_node exit_node (nodeGroup v) (descendants data);
     renders := S (renders v) |}.

(** The pending exit transitions end: their elements are removed. *)
Definition transitions_end (v : TrieVisualizer) : TrieVisualizer :=
  {| trie := trie v;
     linkGroup := filter (λ p, Svg.path_leaving p = false) (linkGroup v);
     nodeGroup := filter (λ g, Svg.leaving g = false) (nodeGroup v);
     renders := renders v |}.

Definition with_trie (t : Trie.Trie) (v : TrieVisualizer) : TrieVisualizer :=
  {| trie := t; linkGroup := linkGroup v; nodeGroup := nodeGroup v;
     renders := renders v |}.

Definition addWord (word : jsstring) (v : TrieVisualizer) : TrieVisualizer * bool :=
  let '(t, added) := Trie.insert word (trie v) in
  (if added then render (with_trie t v) else with_trie t v, added).

(** The loop of [addWords]: the trie and [changed] after it. *)
Fixpoint insert_each (words : list jsstring) (t : Trie.Trie) (changed : bool)
  : Trie.Trie * bool :=
  match words with
  | [] => (t, changed)
  | word :: words' =>
      let '(t', r) := Trie.insert word t in
      insert_each words' t' (if r then true else changed)
  end.

Definition addWords (words : list jsstring) (v : TrieVisualizer) : TrieVisualizer :=
  let '(t, changed) := insert_each words (trie v) false in
  if changed then render (with_trie t v) else with_trie t v.

Definition clear (v : TrieVisualizer) : TrieVisualizer :=
  render (with_trie (Trie.clear (trie v)) v).

Definition words (v : TrieVisualizer) : list jsstring := Trie.words (trie v).

Definition stats (v : TrieVisualizer) : nat * nat :=
  (Trie.wordCount (trie v), Trie.nodeCount (trie v)).

Definition clearHighlights (v : TrieVisualizer) : TrieVisualizer :=
  {| trie := trie v;
     linkGroup :=
       map (λ p, {| Svg.link := Svg.link p; Svg.stroke_width := 2.5;
                    Svg.path_leaving := Svg.path_leaving p |}) (linkGroup v);
     nodeGroup :=
       map (λ g, {| Svg.data := Svg.data g;
                    Svg.shapes :=
                      map (λ s, match s with
                                | Svg.circle _ => Svg.circle 2.5
                                | Svg.text => Svg.text
                                end) (Svg.shapes g);
                    Svg.leaving := Svg.leaving g |}) (nodeGroup v);
     renders := renders v |}.

(** The loop that fills [pathIds]. *)
Fixpoint add_prefixes (cs : list jsstring) (prefix : jsstring) (ids : gset jsstring)
  : gset jsstring :=
  match cs with
  | [] => ids
  | c :: cs' => add_prefixes cs' (prefix ++ c) ({[prefix ++ c]} ∪ ids)
  end.

Definition pathIds (path : jsstring) : gset jsstring :=
  add_prefixes (chars path) [] {[root_id]}.

(** [.select('circle:nth-child(2)').attr('stroke-width', w)] on one [g]:
    [:nth-child(2)] is the second child of its parent, whatever the tags of
    the children, so the selector matches the second child of the [g] when
    that child is a circle, and nothing otherwise. *)
Definition set_second_child_circle (w : Q) (ss : list Svg.Shape) : list Svg.Shape :=
  match ss !! 1%nat with
  | Some (Svg.circle _) => <[1%nat := Svg.circle w]> ss
  | _ => ss
  end.

Definition highlightPath (path : jsstring) (v : TrieVisualizer) : TrieVisualizer :=
  let v := clearHighlights v in
  let ids := pathIds path in
  {| trie := trie v;
     linkGroup :=
       map (λ p, {| Svg.link := Svg.link p;
                    Svg.stroke_width :=
                      if bool_decide (Hier.id (Svg.target (Svg.link p)) ∈ ids)
                      then 4 else 2.5;
                    Svg.path_leaving := Svg.path_leaving p |}) (linkGroup v);
     nodeGroup :=
       map (λ g, {| Svg.data := Svg.data g;
                    Svg.shapes :=
                      set_second_child_circle
                        (if bool_decide (Hier.id (Svg.data g) ∈ ids) then 4 else 2.5)
                        (Svg.shapes g);
                    Svg.leaving := Svg.leaving g |}) (nodeGroup v);
     renders := renders v |}.

(** What is drawn: the id and shapes of each node, the target id and
    stroke width of each link. *)
Definition drawn_nodes (v : TrieVisualizer) : list (jsstring * list Svg.Shape) :=
  map (λ g, (Hier.id (Svg.data g), Svg.shapes g)) (nodeGroup v).

Definition drawn_links (v : TrieVisualizer) : list (jsstring * Q) :=
  map (λ p, (link_key (Svg.link p), Svg.stroke_width p)) (linkGroup v).

End TrieVisualizer.

(** ** The word list as a shared array

    [words] hands an array to the caller, so for that accessor the arrays
    are kept in a store and [_words] is a reference into it.  The caller may
    overwrite any array it holds a reference to. *)

Module Store.

Abbreviation loc := positive.

(** The fields of a [Trie] object; [_words] refers to an array. *)
Record TrieObject : Type := mkObject { root : InternalNode; _words : loc }.

(** The arrays, the trie, and the references the caller has been handed by
    [words], oldest first. *)
Record World : Type := mk {
  arrays : gmap loc (list jsstring);
  this : TrieObject;
  held : list loc
}.

Definition read (l : loc) (h : gmap loc (list jsstring)) : list jsstring :=
  default [] (h !! l).

(** A new array literal or spread. *)
Definition alloc (a : list jsstring) (h : gmap loc (list jsstring))
  : loc * gmap loc (list jsstring) :=
  let l := fresh (dom h) in (l, <[l := a]> h).

(** [new Trie()] in an empty store. *)
Definition new : World :=
  let '(l, h) := alloc [] ∅ in
  {| arrays := h; this := {| root := createNode; _words := l |}; held := [] |}.

Definition insert (word : jsstring) (w : World) : World * bool :=
  match word with
  | [] => (w, false)
  | _ =>
      let '(root', added) := insert_node (root (this w)) (chars word) word in
      let this' := {| root := root'; _words := _words (this w) |} in
      if added
      then ({| arrays := alter (λ a, a ++ [word]) (_words (this w)) (arrays w);
               this := this'; held := held w |}, true)
      else ({| arrays := arrays w; this := this'; held := held w |}, false)
  end.

(** [get words()]: [[...this._words]], handed to the caller.  The [words]
    of [TrieVisualizer] returns the array of this call as it is. *)
Definition words (w : World) : World * loc :=
  let '(l, h) := alloc (read (_words (this w)) (arrays w)) (arrays w) in
  ({| arrays := h; this := this w; held := held w ++ [l] |}, l).

Definition wordCount (w : World) : nat :=
  length (read (_words (this w)) (arrays w)).

Definition clear (w : World) : World :=
  let '(l, h) := alloc [] (arrays w) in
  {| arrays := h; this := {| root := createNode; _words := l |}; held := held w |}.

(** The caller replaces the contents of the [k]-th array it was handed by
    [a] (any [push], [pop], [splice], index or [length] assignment). *)
Definition mutate (k : nat) (a : list jsstring) (w : World) : World :=
  match held w !! k with
  | Some l => {| arrays := <[l := a]> (arrays w); this := this w; held := held w |}
  | None => w
  end.

(** What a caller can do. *)
Inductive Call : Type :=
| Insert (word : jsstring)
| Clear
| Words
| Mutate (k : nat) (a : list jsstring).

Definition call (c : Call) (w : World) : World :=
  match c with
  | Insert word => (insert word w).1
  | Clear => clear w
  | Words => (words w).1
  | Mutate k a => mutate k a w
  end.

Definition run (cs : list Call) (w : World) : World := foldl (flip call) w cs.

(** The words accepted by the [insert] calls of [cs] since the last
    [clear], in the order of the calls, on the trie [t]. *)
Fixpoint accepted (cs : list Call) (t : Trie.Trie) (acc : list jsstring)
  : list jsstring :=
  match cs with
  | [] => acc
  | Insert word :: cs' =>
      let '(t', r) := Trie.insert word t in
      accepted cs' t' (if r then acc ++ [word] else acc)
  | Clear :: cs' => accepted cs' (Trie.clear t) []
  | _ :: cs' => accepted cs' t acc
  end.

(** The array of the trie is allocated, and so is every array the caller
    holds, none of which is the array of the trie. *)
Definition separate (w : World) : Prop :=
  is_Some (arrays w !! _words (this w)) ∧
  ∀ l, l ∈ held w → is_Some (arrays w !! l) ∧ l ≠ _words (this w).

End Store.

(** ** Measures on tries *)

(** The characters of [cs] that have no node yet below [node]: the nodes
    the loop of [insert] creates. *)
Fixpoint missing (node : InternalNode) (cs : list jsstring) : nat :=
  match cs with
  | [] => 0%nat
  | c :: cs' =>
      match children node !! c with
      | Some child => missing child cs'
      | None => length cs
      end
  end.

(** The nodes marked terminal from [node] down. *)
Fixpoint terminals (node : InternalNode) : nat :=
  ((if isTerminal node then 1 else 0) +
   map_fold (λ _ child count, terminals child + count) 0 (children node))%nat.

(** The root after [insert(word)], from the root before. *)
Definition root_after (word : jsstring) (node : InternalNode) : InternalNode :=
  match word with
  | [] => node
  | _ => (insert_node node (chars word) word).1
  end.

(** ** Words added one at a time *)

(** [addWord] called for each word in turn with nothing in between: what
    the loop of [addWordsAnimated] does when no other call comes during its
    delays. *)
Definition addWord_each (words : list jsstring)
    (v : TrieVisualizer.TrieVisualizer) : TrieVisualizer.TrieVisualizer :=
  foldl (λ v word, (TrieVisualizer.addWord word v).1) v words.

(** ** What highlighting leaves alone *)

(** What [clearHighlights] does to one shape. *)
Definition unhighlight (s : Svg.Shape) : Svg.Shape :=
  match s with Svg.circle _ => Svg.circle 2.5 | Svg.text => Svg.text end.

(** A scene without its stroke widths: the trie, the number of render
    passes, and of every element its datum, whether it is leaving and, for a
    node, which of its shapes are circles. *)
Definition without_widths (v : TrieVisualizer.TrieVisualizer)
  : Trie.Trie * nat * list (Svg.Link * bool)
    * list (TrieHierarchyNode * list bool * bool) :=
  (TrieVisualizer.trie v, TrieVisualizer.renders v,
   map (λ p, (Svg.link p, Svg.path_leaving p)) (TrieVisualizer.linkGroup v),
   map (λ g, (Svg.data g, map TrieVisualizer.is_circle (Svg.shapes g),
              Svg.leaving g)) (TrieVisualizer.nodeGroup v)).

(** ** The palette ([resolveColors]) *)

Module Colors.

(** An object with string values: a key is absent, or there with a string
    or with [undefined] ([None]). *)
Abbreviation obj := (gmap string (option jsstring)).

Definition DEFAULT_COLORS : obj :=
  {[ "accent" := Some (lit "#d94040");
     "bg" := Some (lit "#ffffff");
     "text" := Some (lit "#1e2a3a");
     "textMuted" := Some (lit "#8899aa");
     "border" := Some (lit "#d0d8e4") ]}.

(** [{ ...a, ...b }]: every key of [b], whatever its value, then the keys
    of [a] that [b] has not. *)
Definition spread (a b : obj) : obj := b ∪ a.

(** The five roles with the custom property each is read from. *)
Definition roles : list (string * string) :=
  [("accent", "--accent"); ("bg", "--bg"); ("text", "--text");
   ("textMuted", "--text-muted"); ("border", "--border")].

Section resolve.
(** [document] is [None] where [typeof document] is ['undefined'], and
    otherwise gives, for a property name, the trimmed value
    [getComputedStyle(document.documentElement).getPropertyValue(prop).trim()]. *)
Context (document : option (string → jsstring)).

(** [get]: the value, or [undefined] for the empty string. *)
Definition get (cs : string → jsstring) (prop : string) : option jsstring :=
  match cs prop with
  | [] => None
  | value => Some value
  end.

(** [resolveColors(overrides)]; [overrides] is [None] when the argument is
    [undefined]. *)
Definition resolveColors (overrides : option obj) : obj :=
  let css : obj :=
    match document with
    | Some cs =>
        {[ "accent" := get cs "--accent";
           "bg" := get cs "--bg";
           "text" := get cs "--text";
           "textMuted" := get cs "--text-muted";
           "border" := get cs "--border" ]}
    | None => ∅
    end in
  spread (spread DEFAULT_COLORS css) (default ∅ overrides).
End resolve.

End Colors.

(** ** First occurrences *)

(** The words of [ws] that are not empty and not among [seen], each where
    it comes first. *)
Fixpoint first_new (seen ws : list jsstring) : list jsstring :=
  match ws with
  | [] => []
  | w :: ws' =>
      if decide (w = [] ∨ w ∈ seen) then first_new seen ws'
      else w :: first_new (seen ++ [w]) ws'
  end.

(** * Properties *)

(** ** Strings *)

(** A surrogate pair is one character; a lone surrogate is one too.  The
    sort is by code unit, so a pair comes before U+E000. *)
Example chars_surrogates :
  chars [0xD83D; 0xDE00; 97; 0xDE00; 0xD83D] =
    [[0xD83D; 0xDE00]; [97]; [0xDE00]; [0xD83D]] ∧
  sort [lit "b"; [0xE000]; [0xD83D; 0xDE00]; lit "a"; lit "B"; lit "ab"] =
    [lit "B"; lit "a"; lit "ab"; lit "b"; [0xD83D; 0xDE00]; [0xE000]].
Proof. by vm_compute. Qed.

Lemma chars_nil (s : jsstring) : chars s = [] ↔ s = [].
Proof.
  split; [|by intros ->].
  destruct s as [|u [|v rest]]; simpl; [done|done|].
  by destruct (is_high_surrogate u && is_low_surrogate v).
Qed.

Lemma concat_chars (s : jsstring) : concat (chars s) = s.
Proof.
  assert (∀ n (s : jsstring), (length s ≤ n)%nat → concat (chars s) = s) as Hn.
  { clear s. induction n as [|n IH]; intros [|u [|v rest]] Hlen;
      simpl in *; try done; try lia.
    destruct (is_high_surrogate u && is_low_surrogate v); simpl.
    - f_equal. f_equal. apply IH. lia.
    - f_equal. apply (IH (v :: rest)). simpl. lia. }
  by apply (Hn (length s)).
Qed.

Lemma str_ltb_irrefl a : str_ltb a a = false.
Proof. induction a as [|x a IH]; simpl; [done|]. by rewrite N.ltb_irrefl. Qed.

Lemma str_ltb_trans a b c :
  str_ltb a b = true → str_ltb b c = true → str_ltb a c = true.
Proof.
  revert b c. induction a as [|x a IH]; intros [|y b] [|z c]; simpl; try done.
  destruct (N.ltb_spec x y), (N.ltb_spec y x), (N.ltb_spec y z),
    (N.ltb_spec z y), (N.ltb_spec x z), (N.ltb_spec z x);
    try done; try lia.
  apply IH.
Qed.

Lemma str_ltb_connex a b : str_ltb a b = false → str_ltb b a = false → a = b.
Proof.
  revert b. induction a as [|x a IH]; intros [|y b]; simpl; try done.
  destruct (N.ltb_spec x y), (N.ltb_spec y x); try done; try lia.
  intros. f_equal; [lia|by apply IH].
Qed.

Lemma str_ltb_asym a b : str_ltb a b = true → str_ltb b a = false.
Proof.
  intros Hab. destruct (str_ltb b a) eqn:Hba; [|done].
  by rewrite <-(str_ltb_irrefl a), <-(str_ltb_trans _ _ _ Hab Hba).
Qed.

Lemma str_le_total : Total str_le.
Proof.
  intros a b. unfold str_le. destruct (str_ltb b a) eqn:Hba; [|by left].
  right. by apply str_ltb_asym.
Qed.

Lemma str_le_trans : Transitive str_le.
Proof.
  intros a b c Hab Hbc. unfold str_le in *.
  destruct (str_ltb c a) eqn:Hca; [|done].
  destruct (str_ltb b c) eqn:Hbc'.
  - by rewrite (str_ltb_trans _ _ _ Hbc' Hca) in Hab.
  - rewrite (str_ltb_connex _ _ Hbc' Hbc) in Hab. congruence.
Qed.

(** Sorting distinct keys puts them in strictly ascending order. *)
Lemma sort_strict (keys : list jsstring) :
  NoDup keys → StronglySorted (λ a b, str_ltb a b = true) (sort keys).
Proof.
  intros Hnd. unfold sort.
  assert (NoDup (merge_sort str_le keys)) as Hnd'
    by by rewrite merge_sort_Permutation.
  pose proof (@StronglySorted_merge_sort _ str_le _ str_le_trans str_le_total keys)
    as Hs.
  induction Hs as [|a l Hs IH Hall]; [constructor|].
  apply NoDup_cons in Hnd' as [Ha Hnd']. constructor; [by apply IH|].
  apply Forall_forall. intros b Hb.
  rewrite Forall_forall in Hall. specialize (Hall b Hb). unfold str_le in Hall.
  destruct (str_ltb a b) eqn:Hab; [done|].
  rewrite (str_ltb_connex _ _ Hab Hall) in Ha. done.
Qed.

(** The sorted keys do not depend on the order the keys come in. *)
Lemma sort_any_order (keys1 keys2 : list jsstring) :
  NoDup keys1 → keys1 ≡ₚ keys2 → sort keys1 = sort keys2.
Proof.
  intros Hnd Hperm.
  assert (NoDup keys2) as Hnd2 by by rewrite <-Hperm.
  pose proof (sort_strict keys1 Hnd) as Hs1.
  pose proof (sort_strict keys2 Hnd2) as Hs2.
  assert (sort keys1 ≡ₚ sort keys2) as Hp.
  { unfold sort. by rewrite !merge_sort_Permutation. }
  revert Hs1 Hs2 Hp. generalize (sort keys1) (sort keys2). clear.
  intros l1. induction l1 as [|a l1 IH]; intros l2 Hs1 Hs2 Hp.
  - by apply Permutation_nil_l in Hp.
  - destruct l2 as [|b l2]; [by apply Permutation_nil_r in Hp|].
    apply StronglySorted_inv in Hs1 as [Hs1 Ha].
    apply StronglySorted_inv in Hs2 as [Hs2 Hb].
    rewrite Forall_forall in Ha, Hb.
    assert (a = b) as ->.
    { assert (a ∈ b :: l2) as Hin1 by (rewrite <-Hp; left).
      assert (b ∈ a :: l1) as Hin2 by (rewrite Hp; left).
      apply elem_of_cons in Hin1 as [|Hin1]; [done|].
      apply elem_of_cons in Hin2 as [|Hin2]; [done|].
      pose proof (str_ltb_asym _ _ (Ha b Hin2)) as Hba.
      by rewrite (Hb a Hin1) in Hba. }
    f_equal. apply IH; [done|done|]. by apply (inj (cons b)).
Qed.

Lemma elem_of_sort key keys : key ∈ sort keys ↔ key ∈ keys.
Proof. unfold sort. by rewrite merge_sort_Permutation. Qed.

(** ** Induction on trie nodes *)

Lemma walk_child node c child :
  children node !! c = Some child → (walk child < walk node)%nat.
Proof.
  destruct node as [m t ws]. simpl. intros Hc.
  enough (walk child ≤ map_fold (λ _ ch count, walk ch + count) 0 m)%nat by lia.
  revert c child Hc.
  apply (map_fold_weak_ind
           (λ r m, ∀ c child, m !! c = Some child → walk child ≤ r)%nat).
  - intros c child. by rewrite lookup_empty.
  - intros i x m' r _ IH c child. rewrite lookup_insert.
    case_decide; intros Hc; simplify_eq; [lia|].
    specialize (IH _ _ Hc). lia.
Qed.

Lemma InternalNode_children_ind (P : InternalNode → Prop) :
  (∀ node, (∀ c child, children node !! c = Some child → P child) → P node) →
  ∀ node, P node.
Proof.
  intros Hstep node. remember (walk node) as k eqn:Hk.
  revert node Hk. induction k as [k IH] using lt_wf_ind. intros node ->.
  apply Hstep. intros c child Hc. apply (IH (walk child)); [|done].
  by eapply walk_child.
Qed.

(** ** Insertion *)

(** The loop body of [insert] with the two map operations merged. *)
Lemma insert_node_cons node c cs word :
  insert_node node (c :: cs) word =
    let '(child', r) := insert_node (child_at node c) cs word in
    ({| children := <[c := child']> (children node);
        isTerminal := isTerminal node; words := words node |}, r).
Proof.
  simpl. unfold child_at. destruct (children node !! c) as [child|] eqn:Hc.
  - by rewrite Hc.
  - rewrite lookup_insert_eq. simpl.
    destruct (insert_node createNode cs word) as [child' r].
    by rewrite insert_insert_eq.
Qed.

(** [node.children.get(char)!] is never [undefined]: the key is there after
    the [has]/[set] that precedes it. *)
Lemma insert_node_get_defined node c :
  is_Some ((match children node !! c with
            | Some _ => children node
            | None => <[c := createNode]> (children node)
            end) !! c).
Proof.
  destruct (children node !! c) eqn:Hc; [by rewrite Hc|].
  by rewrite lookup_insert_eq.
Qed.

Lemma terminal_at_createNode cs : terminal_at createNode cs = false.
Proof. by destruct cs. Qed.

Lemma terminal_at_cons node c cs :
  terminal_at node (c :: cs) = terminal_at (child_at node c) cs.
Proof.
  unfold terminal_at, child_at. simpl.
  destruct (children node !! c); [done|]. simpl.
  by destruct cs.
Qed.

(** [insert] answers the terminal flag of the end node, negated. *)
Lemma insert_node_result node cs word :
  (insert_node node cs word).2 = negb (terminal_at node cs).
Proof.
  revert node. induction cs as [|c cs IH]; intros node.
  - unfold terminal_at. simpl. by destruct (isTerminal node).
  - rewrite insert_node_cons, terminal_at_cons.
    specialize (IH (child_at node c)).
    by destruct (insert_node (child_at node c) cs word).
Qed.

(** A walk that ends on a terminal node has created nothing. *)
Lemma insert_node_false node cs word :
  (insert_node node cs word).2 = false → (insert_node node cs word).1 = node.
Proof.
  revert node. induction cs as [|c cs IH]; intros node.
  - simpl. destruct (isTerminal node); [done|discriminate].
  - rewrite insert_node_cons. specialize (IH (child_at node c)).
    pose proof (insert_node_result (child_at node c) cs word) as Hr.
    destruct (insert_node (child_at node c) cs word) as [child' r].
    simpl in *. intros ->. rewrite IH by done.
    assert (children node !! c = Some (child_at node c)) as Hc.
    { unfold child_at in *. destruct (children node !! c); [done|].
      simpl in Hr. by rewrite terminal_at_createNode in Hr. }
    rewrite insert_id by done. by destruct node.
Qed.

Lemma insert_result word t :
  (Trie.insert word t).2 = negb (bool_decide (word = []) || Trie.stored word t).
Proof.
  unfold Trie.insert, Trie.stored. destruct word as [|u rest]; [done|].
  pose proof (insert_node_result (Trie.root t) (chars (u :: rest)) (u :: rest)) as Hr.
  destruct (insert_node _ _ _) as [root' added]. simpl in *. subst added.
  by destruct (terminal_at _ _).
Qed.

Lemma insert_false_unchanged word t :
  (Trie.insert word t).2 = false → (Trie.insert word t).1 = t.
Proof.
  unfold Trie.insert. destruct word as [|u rest]; [done|].
  pose proof (insert_node_false (Trie.root t) (chars (u :: rest)) (u :: rest)) as Hn.
  destruct (insert_node _ _ _) as [root' added]. simpl in *.
  destruct added; [done|]. intros _. rewrite Hn by done. by destruct t.
Qed.

(** C2: [insert] returns false exactly for the empty word and for a word
    whose end node is already marked terminal, and a call that returns false
    leaves the trie as it was: same [words], [wordCount], [nodeCount] and
    [toHierarchy()].  [insert] is a total function: there is no exception. *)
Theorem insert_false_iff_no_mutation (word : jsstring) (t : Trie.Trie) :
  ((Trie.insert word t).2 = false ↔ word = [] ∨ Trie.stored word t = true) ∧
  ((Trie.insert word t).2 = false →
     (Trie.insert word t).1 = t ∧
     Trie.words (Trie.insert word t).1 = Trie.words t ∧
     Trie.wordCount (Trie.insert word t).1 = Trie.wordCount t ∧
     Trie.nodeCount (Trie.insert word t).1 = Trie.nodeCount t ∧
     Trie.toHierarchy (Trie.insert word t).1 = Trie.toHierarchy t).
Proof.
  split.
  - rewrite insert_result, negb_false_iff, orb_true_iff, bool_decide_eq_true.
    done.
  - intros Hr. by rewrite (insert_false_unchanged _ _ Hr).
Qed.

(** The second [insert("cat")] returns false and changes nothing; so does
    [insert("")]. *)
Example insert_twice :
  let t := (Trie.insert (lit "cat") Trie.new).1 in
  (Trie.insert (lit "cat") Trie.new).2 = true ∧
  Trie.insert (lit "cat") t = (t, false) ∧
  Trie.insert [] t = (t, false) ∧
  Trie.wordCount t = 1%nat ∧ Trie.nodeCount t = 4%nat.
Proof. by vm_compute. Qed.

(** ** The export *)

Lemma convert_eq node char path :
  convert node char path =
    {| Hier.id := match path with [] => root_id | _ => path end;
       Hier.char := char;
       Hier.path := path;
       Hier.isTerminal := isTerminal node;
       Hier.words := words node;
       Hier.children :=
         omap (λ key, (λ conv, conv key (path ++ key)) <$>
                        (convert <$> children node) !! key)
           (sort (map fst (map_to_list (children node)))) |}.
Proof. by destruct node. Qed.

Lemma elem_of_keys (node : InternalNode) key :
  key ∈ map fst (map_to_list (children node)) ↔ is_Some (children node !! key).
Proof.
  rewrite list_elem_of_fmap. split.
  - intros [[k child] [-> Hin]]. apply elem_of_map_to_list in Hin. eauto.
  - intros [child Hc]. exists (key, child). by rewrite elem_of_map_to_list.
Qed.

(** The children of an export node are the converted children of the trie
    node, one per key, in sorted key order: the [sortedKeys.map] of the
    source. *)
Lemma convert_children node char path :
  Hier.children (convert node char path) =
    map (λ key, convert (child_at node key) key (path ++ key))
      (sort (map fst (map_to_list (children node)))).
Proof.
  rewrite convert_eq. simpl.
  assert (∀ key, key ∈ sort (map fst (map_to_list (children node))) →
                 is_Some (children node !! key)) as Hkeys.
  { intros key. by rewrite elem_of_sort, elem_of_keys. }
  induction (sort (map fst (map_to_list (children node)))) as [|key keys IH];
    [done|].
  destruct (Hkeys key) as [child Hc]; [left|].
  simpl. rewrite lookup_fmap. unfold child_at at 1. rewrite Hc. simpl.
  f_equal. apply IH. intros k Hk. apply Hkeys. by right.
Qed.

Lemma last_cons_default {A} (x d : A) (l : list A) :
  List.last (x :: l) d = List.last l x.
Proof.
  revert x d. induction l as [|y l IH]; intros x d; [done|].
  change (List.last (x :: y :: l) d) with (List.last (y :: l) d).
  by rewrite !IH.
Qed.

(** Every node of an export is the conversion of a trie node: the one at
    the end of some characters [cs], with the last of them as its [char] and
    their concatenation appended to the path. *)
Lemma elem_of_nodes_convert node char path h :
  h ∈ nodes (convert node char path) →
  ∃ cs node', find_node node cs = Some node' ∧
              h = convert node' (List.last cs char) (path ++ concat cs).
Proof.
  revert char path. induction node as [node IH] using InternalNode_children_ind.
  intros char path Hh.
  destruct (convert node char path) as [i c p' t ws kids] eqn:Hconv.
  simpl in Hh. apply elem_of_cons in Hh as [->|Hh].
  - exists [], node. simpl. by rewrite app_nil_r.
  - assert (kids = Hier.children (convert node char path)) as ->
      by by rewrite Hconv.
    rewrite convert_children in Hh.
    apply list_elem_of_join in Hh as [l [Hh Hl]].
    apply list_elem_of_fmap in Hl as [k [-> Hk]].
    apply list_elem_of_fmap in Hk as [key [-> Hkey]].
    apply elem_of_sort, elem_of_keys in Hkey as [child Hc].
    unfold child_at in Hh. rewrite Hc in Hh. simpl in Hh.
    destruct (IH _ _ Hc _ _ Hh) as (cs & node' & Hfind & ->).
    exists (key :: cs), node'. split; [simpl; by rewrite Hc|].
    rewrite last_cons_default. simpl. by rewrite (assoc_L (++)).
Qed.

Lemma TrieHierarchyNode_children_ind (P : TrieHierarchyNode → Prop) :
  (∀ h, Forall P (Hier.children h) → P h) → ∀ h, P h.
Proof.
  intros Hstep. fix FIX 1. intros [i c p t ws kids]. apply Hstep. simpl.
  induction kids as [|k kids IH]; constructor; [apply FIX|apply IH].
Qed.

Lemma nodes_self h : h ∈ nodes h.
Proof. destruct h. simpl. left. Qed.

Lemma nodes_below h k x : k ∈ Hier.children h → x ∈ nodes k → x ∈ nodes h.
Proof.
  intros Hk Hx. destruct h as [i c p t ws kids]. simpl in *. right.
  apply list_elem_of_join. exists (nodes k). split; [done|].
  apply list_elem_of_fmap. eauto.
Qed.

Lemma nodes_child h m c : m ∈ nodes h → c ∈ Hier.children m → c ∈ nodes h.
Proof.
  revert m c. induction h as [h IH] using TrieHierarchyNode_children_ind.
  intros m c Hm Hc. destruct h as [i ch p t ws kids]. simpl in Hm.
  apply elem_of_cons in Hm as [->|Hm].
  - eapply nodes_below; [done|apply nodes_self].
  - apply list_elem_of_join in Hm as [l [Hm Hl]].
    apply list_elem_of_fmap in Hl as [k [-> Hk]].
    rewrite Forall_forall in IH. simpl in IH.
    eapply (nodes_below _ k); [done|]. by eapply IH.
Qed.

Lemma route_to_nodes h r n : route_to h r n → n ∈ nodes h.
Proof.
  induction 1 as [|r m c _ IH Hc]; [apply nodes_self|by eapply nodes_child].
Qed.

(** C5: in every export the children of every node are in strictly
    ascending order of their characters, the root has the empty path, the
    path of a child is the path of its parent followed by the child's
    character, and so the path of a node is the concatenation of the
    characters on the route from the root to it. *)
Theorem toHierarchy_sorted_paths (t : Trie.Trie) :
  Hier.path (Trie.toHierarchy t) = [] ∧
  (∀ n, n ∈ nodes (Trie.toHierarchy t) →
     StronglySorted (λ a b, str_ltb a b = true)
       (map Hier.char (Hier.children n)) ∧
     ∀ c, c ∈ Hier.children n → Hier.path c = Hier.path n ++ Hier.char c) ∧
  (∀ r n, route_to (Trie.toHierarchy t) r n →
     Hier.path n = concat (map Hier.char (Trie.toHierarchy t :: r))).
Proof.
  assert (∀ n, n ∈ nodes (Trie.toHierarchy t) →
     StronglySorted (λ a b, str_ltb a b = true)
       (map Hier.char (Hier.children n)) ∧
     ∀ c, c ∈ Hier.children n → Hier.path c = Hier.path n ++ Hier.char c)
    as Hlocal.
  { intros n Hn. unfold Trie.toHierarchy in Hn.
    apply elem_of_nodes_convert in Hn as (cs & node & _ & ->).
    rewrite convert_children. split.
    - rewrite map_map.
      rewrite (map_ext _ (λ key, key)), map_id.
      + apply sort_strict, NoDup_fst_map_to_list.
      + intros key. by rewrite convert_eq.
    - intros c Hc. apply list_elem_of_fmap in Hc as [key [-> _]].
      by rewrite !convert_eq. }
  assert (Hier.path (Trie.toHierarchy t) = []) as Hroot
    by (unfold Trie.toHierarchy; by rewrite convert_eq).
  split; [done|]. split; [done|].
  induction 1 as [|r m c Hr IH Hc].
  - unfold Trie.toHierarchy. rewrite convert_eq. done.
  - destruct (Hlocal m (route_to_nodes _ _ _ Hr)) as [_ Hpath].
    rewrite (Hpath c Hc), IH. simpl.
    rewrite map_app, concat_app. simpl. by rewrite app_nil_r, (assoc_L (++)).
Qed.

(** ** What the nodes of a reachable trie carry *)

Lemma labelled_createNode p : labelled p createNode.
Proof.
  intros [|c cs] node'; simpl; [|by rewrite lookup_empty].
  intros [= <-]. done.
Qed.

Lemma labelled_child p node c :
  labelled p node → labelled (p ++ c) (child_at node c).
Proof.
  intros Hn. unfold child_at.
  destruct (children node !! c) as [child|] eqn:Hc; simpl;
    [|apply labelled_createNode].
  intros cs node' Hfind. rewrite <-(assoc_L (++)).
  apply (Hn (c :: cs)). simpl. by rewrite Hc.
Qed.

Lemma insert_node_labelled p node cs word :
  labelled p node → word = p ++ concat cs →
  labelled p (insert_node node cs word).1.
Proof.
  revert p node. induction cs as [|c cs IH]; intros p node Hn Hw.
  - simpl in *. rewrite app_nil_r in Hw. subst word.
    pose proof (Hn [] node eq_refl) as Hroot. unfold node_ok in Hroot.
    rewrite app_nil_r in Hroot.
    destruct (isTerminal node) eqn:Ht; [done|]. simpl.
    intros [|k cs'] node' Hfind; [|by apply (Hn (k :: cs'))].
    simpl in Hfind. injection Hfind as <-.
    unfold node_ok. simpl. by rewrite Hroot, app_nil_r.
  - rewrite insert_node_cons.
    specialize (IH (p ++ c) (child_at node c) (labelled_child _ _ _ Hn)).
    destruct (insert_node (child_at node c) cs word) as [child' r]. simpl in *.
    rewrite (assoc_L (++)) in Hw. specialize (IH Hw).
    intros [|k cs'] node' Hfind.
    + simpl in Hfind. injection Hfind as <-. apply (Hn [] node eq_refl).
    + simpl in Hfind. destruct (decide (c = k)) as [->|Hne].
      * rewrite lookup_insert_eq in Hfind. simpl. rewrite (assoc_L (++)).
        by apply IH.
      * rewrite lookup_insert_ne in Hfind by done. by apply (Hn (k :: cs')).
Qed.

Lemma insert_root word t :
  Trie.root (Trie.insert word t).1 =
    match word with
    | [] => Trie.root t
    | _ => (insert_node (Trie.root t) (chars word) word).1
    end.
Proof.
  unfold Trie.insert. destruct word as [|u rest]; [done|].
  by destruct (insert_node _ _ _) as [root' []].
Qed.

Lemma insert_node_root_terminal node cs word :
  cs ≠ [] → isTerminal (insert_node node cs word).1 = isTerminal node.
Proof.
  destruct cs as [|c cs]; [done|]. intros _. rewrite insert_node_cons.
  by destruct (insert_node _ _ _).
Qed.

Lemma reachable_labelled t :
  reachable t → labelled [] (Trie.root t) ∧ isTerminal (Trie.root t) = false.
Proof.
  induction 1 as [|word t _ [IHl IHt]|t _ _].
  - split; [apply labelled_createNode|done].
  - rewrite insert_root. destruct word as [|u rest]; [done|]. split.
    + apply insert_node_labelled; [done|]. by rewrite concat_chars.
    + rewrite insert_node_root_terminal; [done|]. by rewrite chars_nil.
  - split; [apply labelled_createNode|done].
Qed.

(** C10: in the export of a reachable trie a node is terminal exactly when
    its [words] is the one-element sequence holding its own path; a node
    that is not terminal, the root among them, has no words; no node has
    more than one. *)
Theorem terminal_iff_own_word (t : Trie.Trie) (Ht : reachable t) :
  (∀ n, n ∈ nodes (Trie.toHierarchy t) →
     (Hier.isTerminal n = true ↔ Hier.words n = [Hier.path n]) ∧
     (Hier.isTerminal n = false → Hier.words n = []) ∧
     (length (Hier.words n) ≤ 1)%nat) ∧
  Hier.isTerminal (Trie.toHierarchy t) = false ∧
  Hier.words (Trie.toHierarchy t) = [].
Proof.
  destruct (reachable_labelled t Ht) as [Hl Hroot]. split.
  - intros n Hn. unfold Trie.toHierarchy in Hn.
    apply elem_of_nodes_convert in Hn as (cs & node & Hfind & ->).
    specialize (Hl cs node Hfind). unfold node_ok in Hl.
    rewrite convert_eq. simpl in *. rewrite Hl.
    destruct (isTerminal node); simpl; repeat split; try done; lia.
  - specialize (Hl [] _ eq_refl). unfold node_ok in Hl.
    unfold Trie.toHierarchy. rewrite convert_eq. simpl.
    by rewrite Hl, Hroot.
Qed.

(** The words "car" and "cart" put into a new trie. *)
Lemma terminal_iff_own_word_witness :
  let t := (Trie.insert_all [lit "car"; lit "cart"] Trie.new).1 in
  reachable t ∧
  ((∀ n, n ∈ nodes (Trie.toHierarchy t) →
      (Hier.isTerminal n = true ↔ Hier.words n = [Hier.path n]) ∧
      (Hier.isTerminal n = false → Hier.words n = []) ∧
      (length (Hier.words n) ≤ 1)%nat) ∧
   Hier.isTerminal (Trie.toHierarchy t) = false ∧
   Hier.words (Trie.toHierarchy t) = []).
Proof.
  assert (reachable (Trie.insert_all [lit "car"; lit "cart"] Trie.new).1) as Hr.
  { change (reachable
              (Trie.insert (lit "cart") (Trie.insert (lit "car") Trie.new).1).1).
    apply reach_insert, reach_insert, reach_new. }
  split; [exact Hr|]. exact (terminal_iff_own_word _ Hr).
Defined.

(** ** Stored words *)

Lemma child_at_insert node c k child' :
  child_at {| children := <[c := child']> (children node);
              isTerminal := isTerminal node; words := words node |} k =
    if decide (c = k) then child' else child_at node k.
Proof.
  unfold child_at. simpl. rewrite lookup_insert. by case_decide.
Qed.

Lemma terminal_at_insert_node node cs word cs' :
  terminal_at (insert_node node cs word).1 cs' =
    bool_decide (cs' = cs) || terminal_at node cs'.
Proof.
  revert node cs'. induction cs as [|c cs IH]; intros node cs'.
  - simpl. destruct (isTerminal node) eqn:Ht; destruct cs' as [|k cs'];
      simpl; done.
  - rewrite insert_node_cons. specialize (IH (child_at node c)).
    destruct (insert_node (child_at node c) cs word) as [child' r].
    simpl in *. destruct cs' as [|k cs']; [done|].
    rewrite !terminal_at_cons, child_at_insert.
    destruct (decide (c = k)) as [->|Hne].
    + rewrite IH. f_equal. apply bool_decide_ext.
      split; [by intros ->|by intros [= ->]].
    + rewrite bool_decide_eq_false_2; [done|]. by intros [= -> _].
Qed.

Lemma chars_inj a b : chars a = chars b → a = b.
Proof. intros Heq. by rewrite <-(concat_chars a), <-(concat_chars b), Heq. Qed.

Lemma stored_insert word word' t :
  word ≠ [] →
  Trie.stored word' (Trie.insert word t).1 =
    bool_decide (word' = word) || Trie.stored word' t.
Proof.
  intros Hne. unfold Trie.stored. rewrite insert_root.
  destruct word as [|u rest]; [done|].
  rewrite terminal_at_insert_node. f_equal. apply bool_decide_ext.
  split; [apply chars_inj|by intros ->].
Qed.

Lemma words_insert word t :
  Trie.words (Trie.insert word t).1 =
    if (Trie.insert word t).2 then Trie.words t ++ [word] else Trie.words t.
Proof.
  unfold Trie.insert. destruct word as [|u rest]; [done|].
  by destruct (insert_node _ _ _) as [root' []].
Qed.

(** In a reachable trie the words whose end node is terminal are the words
    of the word list. *)
Lemma reachable_stored t :
  reachable t → ∀ word, Trie.stored word t = true ↔ word ∈ Trie.words t.
Proof.
  induction 1 as [|word t _ IH|t _ _]; intros word'.
  - unfold Trie.stored. rewrite terminal_at_createNode.
    split; [done|]. intros Hin. by apply elem_of_nil in Hin.
  - destruct (decide (word = [])) as [->|Hne]; [apply IH|].
    rewrite stored_insert, words_insert, insert_result by done.
    rewrite orb_true_iff, bool_decide_eq_true, IH.
    rewrite bool_decide_eq_false_2 by done. simpl.
    destruct (Trie.stored word t) eqn:Hs; simpl.
    + apply IH in Hs. split; [by intros [->|]|by right].
    + rewrite elem_of_app, list_elem_of_singleton. tauto.
  - unfold Trie.stored. rewrite terminal_at_createNode.
    split; [done|]. intros Hin. by apply elem_of_nil in Hin.
Qed.

(** So on a reachable trie [insert] returns false exactly for the empty
    word and for a word of the word list. *)
Lemma insert_false_iff_in_words word t :
  reachable t →
  (Trie.insert word t).2 = false ↔ word = [] ∨ word ∈ Trie.words t.
Proof.
  intros Hr. rewrite insert_result, negb_false_iff, orb_true_iff.
  by rewrite bool_decide_eq_true, (reachable_stored t Hr).
Qed.

(** ** The root id *)

(** C1 (fails on the code): after [insert("__root__")] the node at the end
    of the word is not the root and has the id of the root. *)
Theorem root_id_collision :
  let h := Trie.toHierarchy (Trie.insert (lit "__root__") Trie.new).1 in
  (Trie.insert (lit "__root__") Trie.new).2 = true ∧
  Hier.id h = lit "__root__" ∧
  ∃ n, n ∈ mjoin (nodes <$> Hier.children h) ∧
       Hier.path n = lit "__root__" ∧ Hier.path n ≠ Hier.path h ∧ Hier.id n = Hier.id h.
Proof.
  split; [by vm_compute|]. split; [by vm_compute|].
  exists {| Hier.id := lit "__root__"; Hier.char := lit "_"; Hier.path := lit "__root__";
            Hier.isTerminal := true; Hier.words := [lit "__root__"];
            Hier.children := [] |}.
  split; [|by vm_compute].
  vm_compute. repeat first [apply list_elem_of_here | apply list_elem_of_further].
Qed.

(** Apart from that word the ids are what the specification says: a node
    other than the root has its path as id, and only the path ["__root__"]
    gives it the id of the root. *)
Lemma id_convert node char path :
  Hier.id (convert node char path) = root_id ↔ path = [] ∨ path = root_id.
Proof.
  rewrite convert_eq. simpl. destruct path as [|u rest]; [naive_solver|].
  split; [by right|]. by intros [|].
Qed.

(** ** Three words *)

(** C6: "cat", "car" and "card" are each accepted by a new trie, which then
    has 3 words and 6 nodes: the root, [c], [a] below it, and below [a] the
    terminal [r] (with the terminal [d] below it) and the terminal [t]. *)
Theorem cat_car_card :
  let '(t, accepted) :=
    Trie.insert_all [lit "cat"; lit "car"; lit "card"] Trie.new in
  accepted = [true; true; true] ∧
  Trie.words t = [lit "cat"; lit "car"; lit "card"] ∧
  Trie.wordCount t = 3%nat ∧
  Trie.nodeCount t = 6%nat ∧
  Trie.toHierarchy t =
    Hier.mk root_id [] [] false []
      [Hier.mk (lit "c") (lit "c") (lit "c") false []
         [Hier.mk (lit "ca") (lit "a") (lit "ca") false []
            [Hier.mk (lit "car") (lit "r") (lit "car") true [lit "car"]
               [Hier.mk (lit "card") (lit "d") (lit "card") true [lit "card"] []];
             Hier.mk (lit "cat") (lit "t") (lit "cat") true [lit "cat"] []]]].
Proof. by vm_compute. Qed.

(** ** Clearing *)

(** C7: [clear()] turns any trie into a new one (no words, one node, an
    export that is only the root), and inserting words, clearing and
    inserting the same words again gives what inserting them once into a new
    trie gives: the same returned booleans, export, words and counts. *)
Theorem clear_then_reinsert (t : Trie.Trie) (ws : list jsstring) :
  Trie.clear t = Trie.new ∧
  Trie.words (Trie.clear t) = [] ∧
  Trie.wordCount (Trie.clear t) = 0%nat ∧
  Trie.nodeCount (Trie.clear t) = 1%nat ∧
  Trie.toHierarchy (Trie.clear t) = Hier.mk root_id [] [] false [] [] ∧
  let again := Trie.insert_all ws (Trie.clear (Trie.insert_all ws t).1) in
  let once := Trie.insert_all ws Trie.new in
  again = once ∧
  Trie.toHierarchy again.1 = Trie.toHierarchy once.1 ∧
  Trie.words again.1 = Trie.words once.1 ∧
  Trie.wordCount again.1 = Trie.wordCount once.1 ∧
  Trie.nodeCount again.1 = Trie.nodeCount once.1.
Proof.
  assert (∀ t', Trie.clear t' = Trie.new) as Hclear by done.
  repeat split; try done; simpl; by rewrite Hclear.
Qed.

(** ** One render pass for a batch *)

Lemma insert_each_insert_all words t changed :
  TrieVisualizer.insert_each words t changed =
    ((Trie.insert_all words t).1,
     changed || bool_decide (true ∈ (Trie.insert_all words t).2)).
Proof.
  revert t changed. induction words as [|word words IH]; intros t changed; simpl.
  - by rewrite orb_false_r.
  - destruct (Trie.insert word t) as [t1 r]. rewrite IH.
    destruct (Trie.insert_all words t1) as [t2 rs]. simpl. f_equal.
    assert (bool_decide (true ∈ r :: rs) = r || bool_decide (true ∈ rs)) as ->.
    { destruct r; [by apply bool_decide_eq_true; left|].
      apply bool_decide_ext. rewrite elem_of_cons. split; [by intros [|]|by right]. }
    by destruct r, changed.
Qed.

(** C8: [addWords] inserts every word of the list, in order, and runs the
    render pass once, on the trie that holds the whole batch, if some word
    was accepted; if none was, it runs no render pass and leaves the scene
    as it is.  Never more than one pass. *)
Theorem addWords_one_render (words : list jsstring)
    (v : TrieVisualizer.TrieVisualizer) :
  let v' := TrieVisualizer.addWords words v in
  let '(t, accepted) := Trie.insert_all words (TrieVisualizer.trie v) in
  TrieVisualizer.trie v' = t ∧
  (TrieVisualizer.renders v' ≤ S (TrieVisualizer.renders v))%nat ∧
  (true ∈ accepted →
     TrieVisualizer.renders v' = S (TrieVisualizer.renders v) ∧
     v' = TrieVisualizer.render (TrieVisualizer.with_trie t v)) ∧
  (true ∉ accepted →
     TrieVisualizer.renders v' = TrieVisualizer.renders v ∧
     v' = TrieVisualizer.with_trie t v).
Proof.
  unfold TrieVisualizer.addWords. rewrite insert_each_insert_all.
  destruct (Trie.insert_all words (TrieVisualizer.trie v)) as [t accepted].
  simpl. case_bool_decide as Hacc; simpl; repeat split; try done; lia.
Qed.

(** [addWords(["the", "there", "their"])] is three accepted insertions and
    one render pass; the same call again is none of either. *)
Example addWords_the_there_their :
  let v := TrieVisualizer.addWords [lit "the"; lit "there"; lit "their"]
             TrieVisualizer.new in
  TrieVisualizer.renders v = 1%nat ∧
  TrieVisualizer.stats v = (3%nat, 8%nat) ∧
  TrieVisualizer.words v = [lit "the"; lit "there"; lit "their"] ∧
  TrieVisualizer.addWords [lit "the"; lit "there"; lit "their"] v = v.
Proof. by vm_compute. Qed.

(** ** The word list handed out *)

Lemma alloc_fresh a (h : gmap Store.loc (list jsstring)) :
  h !! (Store.alloc a h).1 = None.
Proof. apply not_elem_of_dom, is_fresh. Qed.

Lemma call_separate c w t acc :
  Store.separate w →
  Store.root (Store.this w) = Trie.root t →
  Store.read (Store._words (Store.this w)) (Store.arrays w) = acc →
  let w' := Store.call c w in
  Store.separate w' ∧
  ∃ t', Store.root (Store.this w') = Trie.root t' ∧
        (∀ cs, Store.accepted (c :: cs) t acc =
               Store.accepted cs t'
                 (Store.read (Store._words (Store.this w')) (Store.arrays w'))).
Proof.
  intros [[ws Hws] Hheld] Hroot Hread. unfold Store.read in *.
  rewrite Hws in Hread. simpl in Hread. subst ws.
  destruct c as [word| | |k a]; simpl.
  - unfold Store.insert, Trie.insert. destruct word as [|u rest].
    { simpl. split; [by split; eauto|]. exists t. by rewrite Hws. }
    rewrite Hroot.
    destruct (insert_node (Trie.root t) (chars (u :: rest)) (u :: rest))
      as [root' added].
    destruct added; simpl.
    + split.
      * split; simpl; [by rewrite lookup_alter_eq, Hws|].
        intros l Hl. destruct (Hheld l Hl) as [[x Hx] Hne]. split; [|done].
        rewrite lookup_alter_ne by done. eauto.
      * eexists {| Trie.root := root'; Trie._words := _ |}. split; [done|].
        intros cs. by rewrite lookup_alter_eq, Hws.
    + split; [by split; eauto|].
      eexists {| Trie.root := root'; Trie._words := _ |}. split; [done|].
      intros cs. by rewrite Hws.
  - unfold Store.clear. pose proof (alloc_fresh [] (Store.arrays w)) as Hfresh.
    simpl in *. split.
    + split; simpl; [by rewrite lookup_insert_eq|].
      intros l Hl. destruct (Hheld l Hl) as [[x Hx] Hne].
      assert (l ≠ fresh (dom (Store.arrays w))) by congruence.
      rewrite lookup_insert_ne by done. eauto.
    + exists (Trie.clear t). split; [done|]. intros cs.
      by rewrite lookup_insert_eq.
  - unfold Store.words. pose proof (alloc_fresh acc (Store.arrays w)) as Hfresh.
    simpl in *. unfold Store.read. rewrite Hws. simpl.
    assert (Store._words (Store.this w) ≠ fresh (dom (Store.arrays w)))
      by congruence.
    split.
    + split; simpl; [rewrite lookup_insert_ne by done; eauto|].
      intros l Hl. apply elem_of_app in Hl as [Hl|Hl].
      * destruct (Hheld l Hl) as [[x Hx] Hne].
        assert (l ≠ fresh (dom (Store.arrays w))) by congruence.
        rewrite lookup_insert_ne by done. eauto.
      * apply list_elem_of_singleton in Hl as ->.
        rewrite lookup_insert_eq. eauto.
    + exists t. split; [done|]. intros cs.
      by rewrite lookup_insert_ne, Hws by done.
  - unfold Store.mutate. destruct (Store.held w !! k) as [l|] eqn:Hk; simpl.
    + apply list_elem_of_lookup_2 in Hk.
      destruct (Hheld l Hk) as [_ Hne]. split.
      * split; simpl; [rewrite lookup_insert_ne by done; eauto|].
        intros l' Hl'. destruct (Hheld l' Hl') as [[x Hx] Hne']. split; [|done].
        rewrite lookup_insert. case_decide; eauto.
      * exists t. split; [done|]. intros cs.
        by rewrite lookup_insert_ne, Hws by done.
    + split; [by split; eauto|]. exists t. split; [done|]. intros cs.
      by rewrite Hws.
Qed.

Lemma run_separate cs w t :
  Store.separate w →
  Store.root (Store.this w) = Trie.root t →
  Store.separate (Store.run cs w) ∧
  Store.read (Store._words (Store.this (Store.run cs w)))
    (Store.arrays (Store.run cs w)) =
  Store.accepted cs t
    (Store.read (Store._words (Store.this w)) (Store.arrays w)).
Proof.
  revert w t. induction cs as [|c cs IH]; intros w t Hsep Hroot; [done|].
  destruct (call_separate c w t _ Hsep Hroot eq_refl) as [Hsep' (t' & Hroot' & Hacc)].
  rewrite Hacc. change (Store.run (c :: cs) w) with (Store.run cs (Store.call c w)).
  by apply IH.
Qed.

(** For [insert] calls only, the accepted words are the word list of the
    trie without a store. *)
Lemma accepted_insert_all ws t :
  Store.accepted (Store.Insert <$> ws) t (Trie.words t) =
    Trie.words (Trie.insert_all ws t).1.
Proof.
  revert t. induction ws as [|w ws IH]; intros t; [done|]. simpl.
  pose proof (words_insert w t) as Hw.
  destruct (Trie.insert w t) as [t1 r]. simpl in Hw. rewrite <-Hw, IH.
  by destruct (Trie.insert_all ws t1).
Qed.

Lemma new_separate : Store.separate Store.new.
Proof.
  split; [by vm_compute; eauto|]. intros l Hl. by apply elem_of_nil in Hl.
Qed.

(** C9: after any calls of [insert], [clear] and [words], and any writes of
    the caller to the arrays [words] gave it, [words] returns a new array
    that holds the accepted words in insertion order, and [wordCount] is
    their number.  Whatever the caller then writes to that array, the list
    inside the trie, [wordCount] and the contents of the array the next
    [words] returns stay the same. *)
Theorem words_defensive_copy (cs : list Store.Call) :
  let w := Store.run cs Store.new in
  let ws := Store.accepted cs Trie.new [] in
  let '(w1, l) := Store.words w in
  Store.read l (Store.arrays w1) = ws ∧
  Store.wordCount w = length ws ∧
  Store.arrays w !! l = None ∧
  l ≠ Store._words (Store.this w) ∧
  Store.held w1 !! length (Store.held w) = Some l ∧
  ∀ a, let w2 := Store.mutate (length (Store.held w)) a w1 in
       Store.read l (Store.arrays w2) = a ∧
       Store.read (Store._words (Store.this w2)) (Store.arrays w2) = ws ∧
       Store.wordCount w2 = length ws ∧
       let '(w3, l') := Store.words w2 in
       Store.read l' (Store.arrays w3) = ws.
Proof.
  intros w ws.
  destruct (run_separate cs Store.new Trie.new new_separate eq_refl)
    as [Hsep Hread].
  change (Store.read _ (Store.arrays Store.new)) with (@nil jsstring) in Hread.
  fold w in Hsep, Hread. fold ws in Hread.
  unfold Store.words at 1. simpl.
  pose proof (alloc_fresh ws (Store.arrays w)) as Hfresh. simpl in Hfresh.
  destruct Hsep as [[x Hx] Hheld].
  assert (fresh (dom (Store.arrays w)) ≠ Store._words (Store.this w)) as Hne
    by congruence.
  rewrite Hread. unfold Store.wordCount. rewrite Hread.
  unfold Store.read at 1. rewrite lookup_insert_eq. simpl.
  assert (∀ a, Store.mutate (length (Store.held w)) a
                 {| Store.arrays := <[fresh (dom (Store.arrays w)) := ws]> (Store.arrays w);
                    Store.this := Store.this w;
                    Store.held := Store.held w ++ [fresh (dom (Store.arrays w))] |} =
               {| Store.arrays :=
                    <[fresh (dom (Store.arrays w)) := a]>
                      (<[fresh (dom (Store.arrays w)) := ws]> (Store.arrays w));
                  Store.this := Store.this w;
                  Store.held := Store.held w ++ [fresh (dom (Store.arrays w))] |})
    as Hmut.
  { intros a. unfold Store.mutate. simpl.
    by rewrite lookup_app_r, Nat.sub_diag. }
  repeat split; try done.
  - by rewrite lookup_app_r, Nat.sub_diag.
  - rewrite Hmut. simpl. unfold Store.read. by rewrite lookup_insert_eq.
  - rewrite Hmut. simpl. unfold Store.read in *.
    by rewrite !lookup_insert_ne.
  - rewrite Hmut. simpl. unfold Store.read in *.
    by rewrite !lookup_insert_ne, Hread.
  - rewrite Hmut. unfold Store.words. simpl. unfold Store.read in *.
    by rewrite lookup_insert_eq, !lookup_insert_ne.
Qed.

(** ** The scene *)

(** Entering nodes are put before the next joined node of the data, which
    is in breadth-first order: "b" comes before "ab". *)
Example render_order :
  let v := TrieVisualizer.addWords [lit "b"]
             (TrieVisualizer.addWords [lit "ab"] TrieVisualizer.new) in
  TrieVisualizer.drawn_nodes v =
    [(root_id, [Svg.circle 2; Svg.text]);
     (lit "a", [Svg.circle 2.5; Svg.text]);
     (lit "b", [Svg.circle 2; Svg.circle 2.5; Svg.text]);
     (lit "ab", [Svg.circle 2; Svg.circle 2.5; Svg.text])] ∧
  TrieVisualizer.drawn_links v =
    [(lit "a", 2.5%Q); (lit "b", 2.5%Q); (lit "ab", 2.5%Q)].
Proof. by vm_compute. Qed.

(** A node that becomes terminal gets its ring before its main circle. *)
Example render_new_terminal :
  let v := TrieVisualizer.addWords [lit "a"]
             (TrieVisualizer.addWords [lit "ab"] TrieVisualizer.new) in
  TrieVisualizer.drawn_nodes v =
    [(root_id, [Svg.circle 2; Svg.text]);
     (lit "a", [Svg.circle 2; Svg.circle 2.5; Svg.text]);
     (lit "ab", [Svg.circle 2; Svg.circle 2.5; Svg.text])].
Proof. by vm_compute. Qed.

(** [clear()] leaves the root and lets the rest exit; the exiting elements
    are gone when their transitions have ended. *)
Example clear_scene :
  let v := TrieVisualizer.clear
             (TrieVisualizer.addWords [lit "ab"] TrieVisualizer.new) in
  map Svg.leaving (TrieVisualizer.nodeGroup v) = [false; true; true] ∧
  map Svg.path_leaving (TrieVisualizer.linkGroup v) = [true; true] ∧
  TrieVisualizer.drawn_nodes (TrieVisualizer.transitions_end v) =
    [(root_id, [Svg.circle 2; Svg.text])] ∧
  TrieVisualizer.drawn_links (TrieVisualizer.transitions_end v) = [].
Proof. by vm_compute. Qed.

(** ** Highlighting *)

(** [clearHighlights] leaves every circle and every link with the stroke
    width 2.5. *)
Lemma clearHighlights_all (v : TrieVisualizer.TrieVisualizer) :
  Forall (λ p, Svg.stroke_width p = 2.5%Q)
    (TrieVisualizer.linkGroup (TrieVisualizer.clearHighlights v)) ∧
  Forall (λ g, Forall (λ s, s = Svg.text ∨ s = Svg.circle 2.5) (Svg.shapes g))
    (TrieVisualizer.nodeGroup (TrieVisualizer.clearHighlights v)).
Proof.
  split; simpl; apply Forall_fmap, Forall_true; intros x; simpl; [done|].
  apply Forall_fmap, Forall_true. intros []; simpl; auto.
Qed.

(** The ids [highlightPath] collects: the id of the root and every
    non-empty prefix of the path that ends between two characters. *)
Lemma elem_of_add_prefixes cs prefix ids x :
  x ∈ TrieVisualizer.add_prefixes cs prefix ids ↔
  x ∈ ids ∨ ∃ k, (0 < k ≤ length cs)%nat ∧ x = prefix ++ concat (take k cs).
Proof.
  revert prefix ids. induction cs as [|c cs IH]; intros prefix ids; simpl.
  - split; [by left|]. intros [|[k [Hk _]]]; [done|lia].
  - rewrite IH, elem_of_union, elem_of_singleton. split.
    + intros [[->|]|[k [Hk ->]]]; [right|by left|right].
      * exists 1%nat. split; [lia|]. simpl. rewrite ?take_0. simpl. by rewrite ?app_nil_r.
      * exists (S k). split; [lia|]. simpl. by rewrite (assoc_L (++)).
    + intros [|[[|k] [Hk ->]]]; [by left; right|lia|].
      destruct k as [|k].
      * left. left. simpl. rewrite ?take_0. simpl. by rewrite ?app_nil_r.
      * right. exists (S k). split; [lia|]. simpl. by rewrite (assoc_L (++)).
Qed.

Lemma elem_of_pathIds path x :
  x ∈ TrieVisualizer.pathIds path ↔
  x = root_id ∨
  ∃ k, (0 < k ≤ length (chars path))%nat ∧ x = concat (take k (chars path)).
Proof.
  unfold TrieVisualizer.pathIds.
  by rewrite elem_of_add_prefixes, elem_of_singleton.
Qed.

(** The links are set as the documentation of [highlightPath] says: 4 when
    the id of the target is one of the collected ids, 2.5 otherwise. *)
Lemma highlightPath_links path (v : TrieVisualizer.TrieVisualizer) :
  Forall (λ p, Svg.stroke_width p =
               if bool_decide (TrieVisualizer.link_key (Svg.link p)
                                 ∈ TrieVisualizer.pathIds path)
               then 4%Q else 2.5%Q)
    (TrieVisualizer.linkGroup (TrieVisualizer.highlightPath path v)).
Proof. simpl. rewrite Forall_fmap. apply Forall_fmap, Forall_true. done. Qed.

(** A node whose [g] holds the main circle first and the label second (a
    node that has no ring) keeps the stroke width 2.5 whatever its id. *)
Lemma highlightPath_no_ring path (v : TrieVisualizer.TrieVisualizer) :
  Forall (λ g, ∀ w, Svg.shapes g = [Svg.circle w; Svg.text] → w = 2.5%Q)
    (TrieVisualizer.nodeGroup (TrieVisualizer.highlightPath path v)).
Proof.
  simpl. rewrite Forall_fmap. apply Forall_fmap, Forall_true.
  intros g w. simpl.
  destruct (Svg.shapes g) as [|[w1|] [|[w2|] [|s ss]]]; simpl; try done.
  by intros [= <-].
Qed.

(** C3 (fails on the code): after [addWords(["car", "cart"])] and
    [highlightPath("car")] the links to "c", "ca" and "car" have the stroke
    width 4 and the link to "cart" has 2.5, but of the nodes only "car",
    which has a ring, has a circle of width 4: the circles of the root, of
    "c" and of "ca" have 2.5, as have the circles of "cart". *)
Theorem highlightPath_car_nodes :
  let v := TrieVisualizer.highlightPath (lit "car")
             (TrieVisualizer.addWords [lit "car"; lit "cart"] TrieVisualizer.new) in
  TrieVisualizer.renders v = 1%nat ∧
  TrieVisualizer.drawn_nodes v =
    [(root_id, [Svg.circle 2.5; Svg.text]);
     (lit "c", [Svg.circle 2.5; Svg.text]);
     (lit "ca", [Svg.circle 2.5; Svg.text]);
     (lit "car", [Svg.circle 2.5; Svg.circle 4; Svg.text]);
     (lit "cart", [Svg.circle 2.5; Svg.circle 2.5; Svg.text])] ∧
  TrieVisualizer.drawn_links v =
    [(lit "c", 4%Q); (lit "ca", 4%Q); (lit "car", 4%Q); (lit "cart", 2.5%Q)].
Proof. by vm_compute. Qed.

(** The same scene and the same widths when the two words are added one by
    one, with a render pass each. *)
Lemma highlightPath_car_nodes_one_by_one :
  let v1 := (TrieVisualizer.addWord (lit "car") TrieVisualizer.new).1 in
  let v := TrieVisualizer.highlightPath (lit "car")
             (TrieVisualizer.addWord (lit "cart") v1).1 in
  TrieVisualizer.renders v = 2%nat ∧
  TrieVisualizer.drawn_nodes v =
    [(root_id, [Svg.circle 2.5; Svg.text]);
     (lit "c", [Svg.circle 2.5; Svg.text]);
     (lit "ca", [Svg.circle 2.5; Svg.text]);
     (lit "car", [Svg.circle 2.5; Svg.circle 4; Svg.text]);
     (lit "cart", [Svg.circle 2.5; Svg.circle 2.5; Svg.text])] ∧
  TrieVisualizer.drawn_links v =
    [(lit "c", 4%Q); (lit "ca", 4%Q); (lit "car", 4%Q); (lit "cart", 2.5%Q)].
Proof. by vm_compute. Qed.

(** C4 (fails on the code): [addWord("a")] draws the circle of the root and
    the ring of "a" with the stroke width 2 and the main circle of "a" with
    2.5; after [clearHighlights()] all three have 2.5. *)
Theorem clearHighlights_root_and_ring :
  let v := (TrieVisualizer.addWord (lit "a") TrieVisualizer.new).1 in
  TrieVisualizer.drawn_nodes v =
    [(root_id, [Svg.circle 2; Svg.text]);
     (lit "a", [Svg.circle 2; Svg.circle 2.5; Svg.text])] ∧
  TrieVisualizer.drawn_nodes (TrieVisualizer.clearHighlights v) =
    [(root_id, [Svg.circle 2.5; Svg.text]);
     (lit "a", [Svg.circle 2.5; Svg.circle 2.5; Svg.text])] ∧
  ¬ (2 == 2.5)%Q.
Proof. by vm_compute. Qed.

(** * Further properties *)

(** ** Insert and look up *)

Lemma insert_node_cons_1 node c cs word :
  (insert_node node (c :: cs) word).1 =
    {| children := <[c := (insert_node (child_at node c) cs word).1]> (children node);
       isTerminal := isTerminal node; words := words node |}.
Proof.
  rewrite insert_node_cons. by destruct (insert_node (child_at node c) cs word).
Qed.

(** X1: after [insert(word)] the word is stored, unless it is empty, and
    every other word is stored exactly if it was before. *)
Theorem stored_after_insert (word word' : jsstring) (t : Trie.Trie) :
  Trie.stored word' (Trie.insert word t).1 =
    negb (bool_decide (word = [])) && bool_decide (word' = word)
    || Trie.stored word' t.
Proof.
  destruct (decide (word = [])) as [->|Hne]; [done|].
  rewrite stored_insert by done. by rewrite (bool_decide_eq_false_2 _ Hne).
Qed.

(** X2: a second [insert] of the same word returns false and leaves the
    trie as the first one made it, whatever the trie and the word. *)
Theorem insert_again (word : jsstring) (t : Trie.Trie) :
  Trie.insert word (Trie.insert word t).1 = ((Trie.insert word t).1, false).
Proof.
  assert ((Trie.insert word (Trie.insert word t).1).2 = false) as Hr.
  { rewrite insert_result. destruct (decide (word = [])) as [->|Hne]; [done|].
    rewrite stored_insert by done.
    by rewrite (bool_decide_eq_true_2 (word = word)), orb_true_r. }
  pose proof (insert_false_unchanged _ _ Hr) as Hu.
  destruct (Trie.insert word (Trie.insert word t).1) as [t' r].
  simpl in *. by subst.
Qed.

(** ** The order of insertions *)

Lemma insert_node_comm node cs1 word1 cs2 word2 :
  (cs1 = cs2 → word1 = word2) →
  (insert_node (insert_node node cs1 word1).1 cs2 word2).1 =
  (insert_node (insert_node node cs2 word2).1 cs1 word1).1.
Proof.
  revert node cs2. induction cs1 as [|c1 cs1 IH]; intros node [|c2 cs2] Heq.
  - by rewrite (Heq eq_refl).
  - rewrite !insert_node_cons_1. simpl.
    destruct (isTerminal node) eqn:Ht; simpl; [by rewrite Ht|done].
  - rewrite !insert_node_cons_1. simpl.
    destruct (isTerminal node) eqn:Ht; simpl; [by rewrite Ht|done].
  - rewrite !insert_node_cons_1. simpl. rewrite !child_at_insert.
    destruct (decide (c1 = c2)) as [->|Hne].
    + rewrite !decide_True by done. rewrite !insert_insert_eq.
      f_equal. f_equal. apply IH. intros ->. by apply Heq.
    + rewrite !decide_False by done. f_equal. by apply insert_insert_ne.
Qed.

Lemma root_after_comm a b node :
  root_after a (root_after b node) = root_after b (root_after a node).
Proof.
  destruct a as [|u a], b as [|v b]; try done.
  apply insert_node_comm. apply chars_inj.
Qed.

Lemma insert_all_root ws t :
  Trie.root (Trie.insert_all ws t).1 = foldl (flip root_after) (Trie.root t) ws.
Proof.
  revert t. induction ws as [|w ws IH]; intros t; [done|]. simpl.
  pose proof (insert_root w t) as Hw.
  destruct (Trie.insert w t) as [t1 r]. specialize (IH t1).
  destruct (Trie.insert_all ws t1) as [t2 rs]. simpl in *.
  by rewrite IH, Hw.
Qed.

Lemma foldl_root_after_perm ws1 ws2 node :
  ws1 ≡ₚ ws2 →
  foldl (flip root_after) node ws1 = foldl (flip root_after) node ws2.
Proof.
  intros Hp. revert node.
  induction Hp as [|w ws1 ws2 _ IH|a b ws|ws1 ws2 ws3 _ IH1 _ IH2]; intros node.
  - done.
  - simpl. apply IH.
  - simpl. change (flip root_after ?x ?y) with (root_after y x).
    by rewrite root_after_comm.
  - by rewrite IH1.
Qed.

(** X3: the tree of the trie does not depend on the order of the [insert]
    calls: the same words in another order, from the same trie, give the
    same export and the same [nodeCount]. *)
Theorem insert_order_irrelevant (ws1 ws2 : list jsstring) (t : Trie.Trie)
    (Hperm : ws1 ≡ₚ ws2) :
  Trie.toHierarchy (Trie.insert_all ws1 t).1 =
    Trie.toHierarchy (Trie.insert_all ws2 t).1 ∧
  Trie.nodeCount (Trie.insert_all ws1 t).1 =
    Trie.nodeCount (Trie.insert_all ws2 t).1.
Proof.
  unfold Trie.toHierarchy, Trie.nodeCount.
  by rewrite !insert_all_root, (foldl_root_after_perm _ _ _ Hperm).
Qed.

Lemma insert_order_irrelevant_witness :
  let ws1 := [lit "cat"; lit "car"; lit "card"] in
  let ws2 := [lit "card"; lit "cat"; lit "car"] in
  ws1 ≡ₚ ws2 ∧
  Trie.toHierarchy (Trie.insert_all ws1 Trie.new).1 =
    Trie.toHierarchy (Trie.insert_all ws2 Trie.new).1 ∧
  Trie.nodeCount (Trie.insert_all ws1 Trie.new).1 =
    Trie.nodeCount (Trie.insert_all ws2 Trie.new).1.
Proof.
  assert ([lit "cat"; lit "car"; lit "card"]
            ≡ₚ [lit "card"; lit "cat"; lit "car"]) as Hp.
  { change ([lit "cat"; lit "car"] ++ [lit "card"]
              ≡ₚ [lit "card"] ++ [lit "cat"; lit "car"]).
    apply Permutation_app_comm. }
  split; [exact Hp|]. exact (insert_order_irrelevant _ _ Trie.new Hp).
Defined.

(** ** Counting nodes *)

Lemma map_fold_sum_insert (g : InternalNode → nat)
    (m : gmap jsstring InternalNode) c x :
  (map_fold (λ _ child count, g child + count) 0 (<[c := x]> m)
   + from_option g 0 (m !! c) =
   g x + map_fold (λ _ child count, g child + count) 0 m)%nat.
Proof.
  destruct (m !! c) as [y|] eqn:Hc; simpl.
  - rewrite <-(insert_delete_eq m).
    rewrite (map_fold_delete_L _ _ c y m); [|intros; lia|done].
    rewrite map_fold_insert_L; [lia|intros; lia|apply lookup_delete_eq].
  - rewrite map_fold_insert_L; [lia|intros; lia|done].
Qed.

Lemma map_fold_sum_list (g : InternalNode → nat)
    (m : gmap jsstring InternalNode) :
  map_fold (λ _ child count, g child + count)%nat 0%nat m =
    sum_list_with (λ kc, g kc.2) (map_to_list m).
Proof.
  rewrite map_fold_foldr, sum_list_with_foldr.
  induction (map_to_list m) as [|[k child] l IH]; [done|]. simpl. by rewrite IH.
Qed.

(** The sum over the children in map order is the sum over the sorted
    keys. *)
Lemma sum_sorted_keys (g : InternalNode → nat) node :
  map_fold (λ _ child count, g child + count)%nat 0%nat (children node) =
    sum_list_with (λ key, g (child_at node key))
      (sort (map fst (map_to_list (children node)))).
Proof.
  rewrite map_fold_sum_list. unfold sort. rewrite merge_sort_Permutation.
  assert (∀ kc, kc ∈ map_to_list (children node) →
                child_at node kc.1 = kc.2) as Hin.
  { intros [k child] Hkc. apply elem_of_map_to_list in Hkc.
    unfold child_at. simpl. by rewrite Hkc. }
  induction (map_to_list (children node)) as [|kc l IH]; [done|]. simpl.
  rewrite (Hin kc) by left. f_equal. apply IH. intros kc' Hkc'.
  apply Hin. by right.
Qed.

Lemma walk_eq node :
  walk node =
    S (map_fold (λ _ child count, walk child + count)%nat 0%nat (children node)).
Proof. by destruct node. Qed.

Lemma walk_insert_node node cs word :
  walk (insert_node node cs word).1 = (walk node + missing node cs)%nat.
Proof.
  revert node. induction cs as [|c cs IH]; intros node.
  - simpl. destruct (isTerminal node); rewrite !walk_eq; simpl; lia.
  - rewrite insert_node_cons_1, !(walk_eq node), walk_eq. simpl.
    pose proof (map_fold_sum_insert walk (children node) c
                  (insert_node (child_at node c) cs word).1) as Hsum.
    rewrite IH in Hsum. unfold child_at in *.
    destruct (children node !! c) as [child|] eqn:Hc; simpl in *; [lia|].
    assert (missing createNode cs = length cs) as Hm by by destruct cs.
    rewrite Hm, map_fold_empty in Hsum. lia.
Qed.

Lemma missing_le node cs : (missing node cs ≤ length cs)%nat.
Proof.
  revert node. induction cs as [|c cs IH]; intros node; simpl; [lia|].
  destruct (children node !! c) as [child|]; [|lia].
  specialize (IH child). lia.
Qed.

Lemma length_chars s : (length (chars s) ≤ length s)%nat.
Proof.
  assert (∀ n (s : jsstring), (length s ≤ n)%nat →
                              (length (chars s) ≤ length s)%nat) as Hn.
  { clear s. induction n as [|n IH]; intros [|u [|v rest]] Hlen;
      simpl in *; try lia.
    destruct (is_high_surrogate u && is_low_surrogate v); simpl.
    - specialize (IH rest). lia.
    - specialize (IH (v :: rest)). simpl in IH. lia. }
  by apply (Hn (length s)).
Qed.

(** X4: [insert] creates one node for each character of the word that has
    no node yet, and no other: [nodeCount] grows by that number, so by at
    most the length of the word, and never shrinks. *)
Theorem nodeCount_insert (word : jsstring) (t : Trie.Trie) :
  Trie.nodeCount (Trie.insert word t).1 =
    (Trie.nodeCount t + missing (Trie.root t) (chars word))%nat ∧
  (Trie.nodeCount t ≤ Trie.nodeCount (Trie.insert word t).1
   ≤ Trie.nodeCount t + length word)%nat.
Proof.
  assert (Trie.nodeCount (Trie.insert word t).1 =
          (Trie.nodeCount t + missing (Trie.root t) (chars word))%nat) as Heq.
  { unfold Trie.nodeCount. rewrite insert_root.
    destruct word as [|u rest]; [simpl; lia|]. apply walk_insert_node. }
  split; [done|]. rewrite Heq.
  pose proof (missing_le (Trie.root t) (chars word)).
  pose proof (length_chars word). lia.
Qed.

(** ** The export and the trie *)

Lemma nodes_convert node char path :
  nodes (convert node char path) =
    convert node char path ::
    mjoin ((λ key, nodes (convert (child_at node key) key (path ++ key))) <$>
             sort (map fst (map_to_list (children node)))).
Proof.
  destruct (convert node char path) as [i c p t ws kids] eqn:Hconv.
  assert (kids = Hier.children (convert node char path)) as Hkids
    by by rewrite Hconv.
  simpl. rewrite Hkids, convert_children. f_equal. f_equal.
  by rewrite <-list_fmap_compose.
Qed.

Lemma length_nodes_convert node char path :
  length (nodes (convert node char path)) = walk node.
Proof.
  revert char path. induction node as [node IH] using InternalNode_children_ind.
  intros char path. rewrite nodes_convert, walk_eq, sum_sorted_keys. simpl.
  f_equal. rewrite length_join, <-list_fmap_compose.
  assert (∀ key, key ∈ sort (map fst (map_to_list (children node))) →
                 is_Some (children node !! key)) as Hkeys.
  { intros key. by rewrite elem_of_sort, elem_of_keys. }
  induction (sort (map fst (map_to_list (children node)))) as [|key keys IHk];
    [done|].
  simpl. destruct (Hkeys key) as [child Hc]; [left|].
  f_equal.
  - unfold child_at. rewrite Hc. simpl. by eapply IH.
  - apply IHk. intros k Hk. apply Hkeys. by right.
Qed.

(** X5: the export has one node for each node of the trie: [nodeCount] is
    the number of nodes of [toHierarchy()]. *)
Theorem nodeCount_export (t : Trie.Trie) :
  Trie.nodeCount t = length (nodes (Trie.toHierarchy t)).
Proof. symmetry. apply length_nodes_convert. Qed.

(** ** Counting words *)

Lemma terminals_eq node :
  terminals node =
    ((if isTerminal node then 1 else 0) +
     map_fold (λ _ child count, terminals child + count) 0 (children node))%nat.
Proof. by destruct node. Qed.

Lemma insert_node_cons_2 node c cs word :
  (insert_node node (c :: cs) word).2 =
    (insert_node (child_at node c) cs word).2.
Proof.
  rewrite insert_node_cons. by destruct (insert_node (child_at node c) cs word).
Qed.

Lemma terminals_insert_node node cs word :
  terminals (insert_node node cs word).1 =
    (terminals node + if (insert_node node cs word).2 then 1 else 0)%nat.
Proof.
  revert node. induction cs as [|c cs IH]; intros node.
  - simpl. destruct (isTerminal node) eqn:Ht; simpl; [lia|].
    rewrite (terminals_eq node), Ht. lia.
  - rewrite insert_node_cons_1, insert_node_cons_2.
    rewrite (terminals_eq node), terminals_eq. simpl.
    pose proof (map_fold_sum_insert terminals (children node) c
                  (insert_node (child_at node c) cs word).1) as Hsum.
    rewrite IH in Hsum. unfold child_at in *.
    destruct (children node !! c) as [child|] eqn:Hc; simpl in *; [lia|].
    rewrite map_fold_empty in Hsum. lia.
Qed.

Lemma length_filter_join {A} (P : A → Prop) `{!∀ x, Decision (P x)}
    (ls : list (list A)) :
  length (filter P (mjoin ls)) = sum_list ((λ l, length (filter P l)) <$> ls).
Proof.
  induction ls as [|l ls IH]; [done|]. simpl.
  by rewrite filter_app, length_app, IH.
Qed.

Lemma terminals_convert node char path :
  length (filter (λ h, Hier.isTerminal h = true)
            (nodes (convert node char path))) = terminals node.
Proof.
  revert char path. induction node as [node IH] using InternalNode_children_ind.
  intros char path.
  rewrite nodes_convert, terminals_eq, sum_sorted_keys, filter_cons.
  assert (length
            (filter (λ h, Hier.isTerminal h = true)
               (mjoin
                  ((λ key, nodes (convert (child_at node key) key (path ++ key)))
                     <$> sort (map fst (map_to_list (children node)))))) =
          sum_list_with (λ key, terminals (child_at node key))
            (sort (map fst (map_to_list (children node))))) as Hkids.
  { rewrite length_filter_join, <-list_fmap_compose.
    assert (∀ key, key ∈ sort (map fst (map_to_list (children node))) →
                   is_Some (children node !! key)) as Hkeys.
    { intros key. by rewrite elem_of_sort, elem_of_keys. }
    induction (sort (map fst (map_to_list (children node)))) as [|key keys IHk];
      [done|].
    simpl. destruct (Hkeys key) as [child Hc]; [left|].
    f_equal.
    - unfold child_at. rewrite Hc. simpl. by eapply IH.
    - apply IHk. intros k Hk. apply Hkeys. by right. }
  assert (Hier.isTerminal (convert node char path) = isTerminal node) as Hterm
    by by rewrite convert_eq.
  case_decide as Hd; rewrite Hterm in Hd.
  - rewrite Hd. simpl. by rewrite Hkids.
  - apply not_true_is_false in Hd. rewrite Hd. simpl. by rewrite Hkids.
Qed.

Lemma insert_result_node word t :
  word ≠ [] →
  (Trie.insert word t).2 = (insert_node (Trie.root t) (chars word) word).2.
Proof.
  intros Hne. unfold Trie.insert. destruct word as [|u rest]; [done|].
  by destruct (insert_node _ _ _) as [root' []].
Qed.

Lemma reachable_wordCount t :
  reachable t → Trie.wordCount t = terminals (Trie.root t).
Proof.
  induction 1 as [|word t _ IH|t _ _]; [done| |done].
  destruct (decide (word = [])) as [->|Hne]; [done|].
  unfold Trie.wordCount in *. fold (Trie.words (Trie.insert word t).1).
  rewrite words_insert, insert_root, insert_result_node by done.
  destruct word as [|u rest]; [done|].
  rewrite terminals_insert_node.
  destruct (insert_node _ _ _).2; unfold Trie.words.
  - rewrite length_app, IH. simpl. lia.
  - rewrite IH. lia.
Qed.

Lemma reachable_words_NoDup t :
  reachable t → NoDup (Trie.words t) ∧ [] ∉ Trie.words t.
Proof.
  induction 1 as [|word t Ht [IHn IHe]|t _ _].
  - split; [constructor|]. intros Hin. by apply elem_of_nil in Hin.
  - rewrite words_insert.
    pose proof (insert_false_iff_in_words word t Ht) as Hfalse.
    destruct (Trie.insert word t).2; [|done].
    assert (word ≠ [] ∧ word ∉ Trie.words t) as [Hne Hnin].
    { split; intros Hw; by destruct Hfalse as [_ Hf]; discriminate Hf; auto. }
    split.
    + apply NoDup_app. split; [done|]. split; [|apply NoDup_singleton].
      intros x Hx ->%list_elem_of_singleton. done.
    + rewrite elem_of_app, list_elem_of_singleton. by intros [|].
  - split; [constructor|]. intros Hin. by apply elem_of_nil in Hin.
Qed.

(** X6: in a reachable trie [wordCount] is the number of terminal nodes of
    the export, the word list has no word twice and not the empty word, and
    there are fewer words than nodes. *)
Theorem wordCount_terminals (t : Trie.Trie) (Ht : reachable t) :
  (Trie.wordCount t =
     length (filter (λ h, Hier.isTerminal h = true)
               (nodes (Trie.toHierarchy t)))) ∧
  NoDup (Trie.words t) ∧
  ([] ∉ Trie.words t) ∧
  (Trie.wordCount t < Trie.nodeCount t)%nat.
Proof.
  destruct (reachable_words_NoDup t Ht) as [Hn He].
  destruct (reachable_labelled t Ht) as [_ Hroot].
  rewrite (reachable_wordCount t Ht).
  unfold Trie.toHierarchy, Trie.nodeCount.
  rewrite terminals_convert. repeat split; try done.
  rewrite <-(terminals_convert (Trie.root t) [] []).
  rewrite <-(length_nodes_convert (Trie.root t) [] []).
  rewrite nodes_convert, filter_cons.
  assert (Hier.isTerminal (convert (Trie.root t) [] []) = false) as Hterm
    by by rewrite convert_eq.
  rewrite decide_False by by rewrite Hterm.
  pose proof (length_filter (λ h, Hier.isTerminal h = true)
    (mjoin ((λ key, nodes (convert (child_at (Trie.root t) key) key ([] ++ key)))
              <$> sort (map fst (map_to_list (children (Trie.root t))))))).
  simpl in *. lia.
Qed.

Lemma wordCount_terminals_witness :
  let t := (Trie.insert_all [lit "cat"; lit "car"; lit "cat"] Trie.new).1 in
  reachable t ∧
  (Trie.wordCount t =
     length (filter (λ h, Hier.isTerminal h = true)
               (nodes (Trie.toHierarchy t)))) ∧
  NoDup (Trie.words t) ∧
  ([] ∉ Trie.words t) ∧
  (Trie.wordCount t < Trie.nodeCount t)%nat.
Proof.
  assert (reachable
            (Trie.insert_all [lit "cat"; lit "car"; lit "cat"] Trie.new).1) as Hr.
  { change (reachable
              (Trie.insert (lit "cat")
                 (Trie.insert (lit "car")
                    (Trie.insert (lit "cat") Trie.new).1).1).1).
    apply reach_insert, reach_insert, reach_insert, reach_new. }
  split; [exact Hr|]. exact (wordCount_terminals _ Hr).
Defined.

(** ** Paths and words *)

Lemma chars_cons2 u v rest :
  chars (u :: v :: rest) =
    if is_high_surrogate u && is_low_surrogate v
    then [u; v] :: chars rest
    else [u] :: chars (v :: rest).
Proof. done. Qed.

(** Cut between two characters, a string has the characters it had. *)
Lemma chars_take s k : chars (concat (take k (chars s))) = take k (chars s).
Proof.
  assert (∀ n (s : jsstring) k, (length s ≤ n)%nat →
            chars (concat (take k (chars s))) = take k (chars s)) as Hn.
  { clear s k. induction n as [|n IH]; intros s k Hlen.
    { destruct s; simpl in Hlen; [by destruct k|lia]. }
    destruct s as [|u [|v rest]].
    - by destruct k.
    - by destruct k as [|[|k]].
    - rewrite chars_cons2.
      destruct (is_high_surrogate u && is_low_surrogate v) eqn:Hpair.
      + destruct k as [|k]; [done|].
        change (chars (u :: v :: concat (take k (chars rest))) =
                [u; v] :: take k (chars rest)).
        rewrite chars_cons2, Hpair. f_equal. apply IH. simpl in Hlen. lia.
      + destruct k as [|k]; [done|].
        change (chars (u :: concat (take k (chars (v :: rest)))) =
                [u] :: take k (chars (v :: rest))).
        specialize (IH (v :: rest) k).
        destruct (take k (chars (v :: rest))) as [|piece pieces] eqn:Htake;
          [done|].
        assert (∃ piece', piece = v :: piece') as [piece' ->].
        { destruct k as [|k]; [done|].
          destruct rest as [|x rest].
          - simpl in Htake. injection Htake as <- _. eauto.
          - rewrite chars_cons2 in Htake.
            destruct (is_high_surrogate v && is_low_surrogate x);
              simpl in Htake; injection Htake as <- _; eauto. }
        change (concat ((v :: piece') :: pieces))
          with (v :: piece' ++ concat pieces) in *.
        rewrite chars_cons2, Hpair. f_equal. apply IH. simpl in Hlen. simpl.
        lia. }
  by apply (Hn (length s)).
Qed.

(** A route in the tree after an [insert] was there before or is along the
    characters of the word. *)
Lemma find_insert_node node cs word cs' node' :
  find_node (insert_node node cs word).1 cs' = Some node' →
  is_Some (find_node node cs') ∨ ∃ k, cs' = take k cs.
Proof.
  revert node cs' node'. induction cs as [|c cs IH]; intros node cs' node'.
  - simpl. destruct (isTerminal node); destruct cs'; simpl; eauto.
  - rewrite insert_node_cons_1. destruct cs' as [|k cs']; simpl; [eauto|].
    destruct (decide (c = k)) as [<-|Hne].
    + rewrite lookup_insert_eq. intros Hfind.
      destruct (IH _ _ _ Hfind) as [Hsome|[j ->]].
      * unfold child_at in Hsome.
        destruct (children node !! c) as [child|]; [by left|]. simpl in Hsome.
        right. exists 1%nat. destruct cs' as [|x cs']; simpl in *.
        -- by rewrite take_0.
        -- rewrite lookup_empty in Hsome. by destruct Hsome.
      * right. by exists (S j).
    + rewrite lookup_insert_ne by done. intros Hfind. left.
      destruct (children node !! k); eauto.
Qed.

(** The routes of a reachable trie are sequences of characters as [chars]
    gives them. *)
Lemma reachable_canonical t :
  reachable t →
  ∀ cs node', find_node (Trie.root t) cs = Some node' → chars (concat cs) = cs.
Proof.
  induction 1 as [|word t _ IH|t _ _]; intros cs node' Hfind.
  - destruct cs; simpl in Hfind; [done|]. by rewrite lookup_empty in Hfind.
  - rewrite insert_root in Hfind. destruct word as [|u rest]; [by eapply IH|].
    apply find_insert_node in Hfind as [[n Hn]|[k ->]]; [by eapply IH|].
    apply chars_take.
  - destruct cs; simpl in Hfind; [done|]. by rewrite lookup_empty in Hfind.
Qed.

Lemma find_node_in_nodes node cs node' char path :
  find_node node cs = Some node' →
  convert node' (List.last cs char) (path ++ concat cs)
    ∈ nodes (convert node char path).
Proof.
  revert node char path. induction cs as [|k cs IH]; intros node char path.
  - simpl. intros [= ->]. rewrite app_nil_r. apply nodes_self.
  - simpl find_node. destruct (children node !! k) as [child|] eqn:Hk; [|done].
    intros Hfind. rewrite last_cons_default. simpl concat.
    rewrite (assoc_L (++)).
    eapply nodes_below; [|by apply IH].
    rewrite convert_children. apply list_elem_of_fmap.
    exists k. split.
    + unfold child_at. by rewrite Hk.
    + apply elem_of_sort, elem_of_keys. eauto.
Qed.

(** X7: in a reachable trie the words of the word list are the paths of the
    terminal nodes of the export. *)
Theorem words_are_terminal_paths (t : Trie.Trie) (Ht : reachable t)
    (word : jsstring) :
  word ∈ Trie.words t ↔
  ∃ h, h ∈ nodes (Trie.toHierarchy t) ∧
       Hier.isTerminal h = true ∧ Hier.path h = word.
Proof.
  rewrite <-(reachable_stored t Ht). unfold Trie.stored, terminal_at. split.
  - destruct (find_node (Trie.root t) (chars word)) as [node|] eqn:Hfind;
      [|done].
    simpl. intros Hterm.
    exists (convert node (List.last (chars word) []) ([] ++ concat (chars word))).
    split; [by apply find_node_in_nodes|].
    rewrite convert_eq. simpl. by rewrite concat_chars.
  - intros (h & Hin & Hterm & <-).
    apply elem_of_nodes_convert in Hin as (cs & node & Hfind & ->).
    rewrite convert_eq in *. simpl in *.
    by rewrite (reachable_canonical t Ht cs node Hfind), Hfind.
Qed.

Lemma words_are_terminal_paths_witness :
  let t := (Trie.insert_all [lit "car"; lit "cart"] Trie.new).1 in
  reachable t ∧
  (lit "car" ∈ Trie.words t ↔
   ∃ h, h ∈ nodes (Trie.toHierarchy t) ∧
        Hier.isTerminal h = true ∧ Hier.path h = lit "car").
Proof.
  assert (reachable (Trie.insert_all [lit "car"; lit "cart"] Trie.new).1) as Hr.
  { change (reachable
              (Trie.insert (lit "cart") (Trie.insert (lit "car") Trie.new).1).1).
    apply reach_insert, reach_insert, reach_new. }
  split; [exact Hr|]. exact (words_are_terminal_paths _ Hr (lit "car")).
Defined.

(** ** Ids *)

(** Every node of a reachable trie other than the root is on the way to a
    word of the word list. *)
Lemma reachable_on_word t :
  reachable t →
  ∀ cs node', find_node (Trie.root t) cs = Some node' →
    cs = [] ∨ ∃ word, word ∈ Trie.words t ∧ cs `prefix_of` chars word.
Proof.
  induction 1 as [|word t _ IH|t _ _]; intros cs node' Hfind.
  - destruct cs; simpl in Hfind; [by left|]. by rewrite lookup_empty in Hfind.
  - destruct (Trie.insert word t).2 eqn:Hr;
      [|rewrite insert_false_unchanged in * by done; by eapply IH].
    rewrite words_insert, Hr. rewrite insert_root in Hfind.
    destruct word as [|u rest]; [done|].
    apply find_insert_node in Hfind as [[n Hn]|[k ->]].
    + destruct (IH _ _ Hn) as [|(w & Hw & Hpre)]; [by left|]. right.
      exists w. split; [|done]. apply elem_of_app. by left.
    + right. exists (u :: rest). split; [|apply prefix_take].
      apply elem_of_app. right. by apply list_elem_of_singleton.
  - destruct cs; simpl in Hfind; [by left|]. by rewrite lookup_empty in Hfind.
Qed.

Lemma NoDup_join_fmap {A B} (g : A → list B) (l : list A) :
  NoDup l →
  (∀ a, a ∈ l → NoDup (g a)) →
  (∀ a1 a2 x, a1 ∈ l → a2 ∈ l → x ∈ g a1 → x ∈ g a2 → a1 = a2) →
  NoDup (mjoin (g <$> l)).
Proof.
  induction 1 as [|a l Ha Hl IH]; intros Heach Hdisj; [constructor|].
  simpl. apply NoDup_app. split; [apply Heach; left|]. split.
  - intros x Hx Hin. apply list_elem_of_join in Hin as [k [Hk Hin]].
    apply list_elem_of_fmap in Hin as [a' [-> Ha']].
    assert (a = a') as -> by (eapply Hdisj; [left|by right|done|done]).
    done.
  - apply IH.
    + intros a' Ha'. apply Heach. by right.
    + intros a1 a2 x H1 H2. apply Hdisj; by right.
Qed.

Lemma fmap_join {A B} (f : A → B) (ls : list (list A)) :
  f <$> mjoin ls = mjoin ((fmap f) <$> ls).
Proof.
  induction ls as [|l ls IH]; [done|]. simpl. by rewrite fmap_app, IH.
Qed.

Lemma concat_snoc (pre : list jsstring) key :
  concat (pre ++ [key]) = concat pre ++ key.
Proof. rewrite concat_app. simpl. by rewrite app_nil_r. Qed.

(** When the routes from the root through [node] are sequences of
    characters, no two nodes from [node] down have the same path. *)
Lemma NoDup_paths node char pre :
  (∀ cs node', find_node node cs = Some node' →
               chars (concat (pre ++ cs)) = pre ++ cs) →
  NoDup (Hier.path <$> nodes (convert node char (concat pre))).
Proof.
  revert char pre. induction node as [node IH] using InternalNode_children_ind.
  intros char pre Hcan.
  assert (∀ key h,
            h ∈ nodes (convert (child_at node key) key (concat pre ++ key)) →
            is_Some (children node !! key) →
            ∃ cs, Hier.path h = concat (pre ++ key :: cs) ∧
                  chars (concat (pre ++ key :: cs)) = pre ++ key :: cs) as Hsub.
  { intros key h Hh [child Hc]. unfold child_at in Hh. rewrite Hc in Hh.
    simpl in Hh.
    apply elem_of_nodes_convert in Hh as (cs & node' & Hfind & ->).
    exists cs. split.
    - rewrite convert_eq. simpl. rewrite concat_app. simpl.
      by rewrite (assoc_L (++)).
    - apply (Hcan (key :: cs) node'). simpl. by rewrite Hc. }
  rewrite nodes_convert, fmap_cons. apply NoDup_cons. split.
  - rewrite convert_eq. simpl. intros Hin.
    apply list_elem_of_fmap in Hin as (h & Hpath & Hin).
    apply list_elem_of_join in Hin as [l [Hh Hl]].
    apply list_elem_of_fmap in Hl as [key [-> Hkey]].
    apply elem_of_sort, elem_of_keys in Hkey.
    destruct (Hsub key h Hh Hkey) as (cs & Hp & Hc).
    pose proof (Hcan [] node eq_refl) as Hpre. rewrite app_nil_r in Hpre.
    rewrite Hp in Hpath. rewrite Hpath in Hpre. rewrite Hc in Hpre.
    apply (f_equal length) in Hpre. rewrite length_app in Hpre.
    simpl in Hpre. lia.
  - rewrite fmap_join, <-list_fmap_compose. apply NoDup_join_fmap.
    + unfold sort. rewrite merge_sort_Permutation. apply NoDup_fst_map_to_list.
    + intros key Hkey. apply elem_of_sort, elem_of_keys in Hkey as [child Hc].
      simpl. unfold child_at. rewrite Hc. simpl.
      rewrite <-concat_snoc. eapply IH; [done|].
      intros cs node' Hfind. rewrite <-(assoc_L (++)). simpl.
      apply (Hcan (key :: cs) node'). simpl. by rewrite Hc.
    + intros k1 k2 x Hk1 Hk2 Hx1 Hx2.
      apply elem_of_sort, elem_of_keys in Hk1, Hk2. simpl in Hx1, Hx2.
      apply list_elem_of_fmap in Hx1 as (h1 & -> & Hh1).
      apply list_elem_of_fmap in Hx2 as (h2 & Heq & Hh2).
      destruct (Hsub k1 h1 Hh1 Hk1) as (cs1 & Hp1 & Hc1).
      destruct (Hsub k2 h2 Hh2 Hk2) as (cs2 & Hp2 & Hc2).
      rewrite Hp1, Hp2 in Heq. rewrite Heq, Hc2 in Hc1.
      apply app_inv_head in Hc1. by injection Hc1.
Qed.

(** X8: in the export of a reachable trie no two nodes have the same path;
    and if no word of the word list begins with ["__root__"], no two nodes
    have the same id. *)
Theorem export_ids_unique (t : Trie.Trie) (Ht : reachable t) :
  NoDup (Hier.path <$> nodes (Trie.toHierarchy t)) ∧
  ((∀ word, word ∈ Trie.words t → ¬ root_id `prefix_of` word) →
   NoDup (Hier.id <$> nodes (Trie.toHierarchy t))).
Proof.
  assert (NoDup (Hier.path <$> nodes (Trie.toHierarchy t))) as Hpaths.
  { apply (NoDup_paths (Trie.root t) [] []).
    intros cs node' Hfind. by eapply reachable_canonical. }
  split; [done|]. intros Hfree.
  set (idf := λ p : jsstring, match p with [] => root_id | _ => p end).
  assert (Hier.id <$> nodes (Trie.toHierarchy t) =
          idf <$> (Hier.path <$> nodes (Trie.toHierarchy t))) as ->.
  { rewrite <-list_fmap_compose. apply Forall_fmap_ext_1, Forall_forall.
    intros h Hh. apply elem_of_nodes_convert in Hh as (cs & node & _ & ->).
    by rewrite convert_eq. }
  assert (∀ p, p ∈ Hier.path <$> nodes (Trie.toHierarchy t) → p ≠ root_id)
    as Hno.
  { intros p Hp ->. apply list_elem_of_fmap in Hp as (h & Hpath & Hh).
    apply elem_of_nodes_convert in Hh as (cs & node & Hfind & ->).
    rewrite convert_eq in Hpath. simpl in Hpath.
    destruct (reachable_on_word t Ht cs node Hfind)
      as [->|(word & Hword & [k Hk])]; [done|].
    apply (Hfree word Hword). exists (concat k).
    by rewrite <-(concat_chars word), Hk, concat_app, <-Hpath. }
  apply NoDup_fmap_2_strong; [|done].
  intros [|u1 p1] [|u2 p2] Hp1 Hp2 Hid; simpl in Hid; try done.
  - by destruct (Hno _ Hp2).
  - by destruct (Hno _ Hp1).
Qed.

Lemma export_ids_unique_witness :
  let t := (Trie.insert_all [lit "car"; lit "cart"] Trie.new).1 in
  reachable t ∧
  NoDup (Hier.path <$> nodes (Trie.toHierarchy t)) ∧
  ((∀ word, word ∈ Trie.words t → ¬ root_id `prefix_of` word) →
   NoDup (Hier.id <$> nodes (Trie.toHierarchy t))).
Proof.
  assert (reachable (Trie.insert_all [lit "car"; lit "cart"] Trie.new).1) as Hr.
  { change (reachable
              (Trie.insert (lit "cart") (Trie.insert (lit "car") Trie.new).1).1).
    apply reach_insert, reach_insert, reach_new. }
  split; [exact Hr|]. exact (export_ids_unique _ Hr).
Defined.

(** ** Adding words to the diagram *)

Lemma with_trie_same (v : TrieVisualizer.TrieVisualizer) :
  TrieVisualizer.with_trie (TrieVisualizer.trie v) v = v.
Proof. by destruct v. Qed.

(** X9: [addWord] returns what [insert] returns; it runs one render pass,
    on the trie with the word, if the word was accepted, and otherwise
    leaves the visualizer as it was, scene and all. *)
Theorem addWord_renders_iff_accepted (word : jsstring)
    (v : TrieVisualizer.TrieVisualizer) :
  let t := (Trie.insert word (TrieVisualizer.trie v)).1 in
  (TrieVisualizer.addWord word v).2 =
    (Trie.insert word (TrieVisualizer.trie v)).2 ∧
  ((TrieVisualizer.addWord word v).2 = true →
     (TrieVisualizer.addWord word v).1 =
       TrieVisualizer.render (TrieVisualizer.with_trie t v) ∧
     TrieVisualizer.renders (TrieVisualizer.addWord word v).1 =
       S (TrieVisualizer.renders v)) ∧
  ((TrieVisualizer.addWord word v).2 = false →
     (TrieVisualizer.addWord word v).1 = v).
Proof.
  unfold TrieVisualizer.addWord.
  pose proof (insert_false_unchanged word (TrieVisualizer.trie v)) as Hu.
  destruct (Trie.insert word (TrieVisualizer.trie v)) as [t added].
  simpl in *. destruct added; repeat split; try done.
  intros _. rewrite Hu by done. apply with_trie_same.
Qed.

Lemma addWord_each_spec words (v : TrieVisualizer.TrieVisualizer) :
  TrieVisualizer.trie (addWord_each words v) =
    (Trie.insert_all words (TrieVisualizer.trie v)).1 ∧
  TrieVisualizer.renders (addWord_each words v) =
    (TrieVisualizer.renders v +
     length (filter (λ r, r = true)
               (Trie.insert_all words (TrieVisualizer.trie v)).2))%nat.
Proof.
  revert v. induction words as [|word words IH]; intros v; simpl;
    [split; [done|lia]|].
  destruct (IH (TrieVisualizer.addWord word v).1) as [IHt IHr].
  unfold addWord_each in *. rewrite IHt, IHr. clear IH IHt IHr.
  unfold TrieVisualizer.addWord.
  destruct (Trie.insert word (TrieVisualizer.trie v)) as [t1 r]. simpl.
  destruct (Trie.insert_all words t1) as [t2 rs] eqn:Hall.
  destruct r; simpl; rewrite Hall; simpl; [split; [done|lia]|done].
Qed.

(** X10: adding the words one at a time with [addWord] builds the trie
    [addWords] builds, but runs one render pass for each accepted word, where
    [addWords] runs at most one. *)
Theorem addWord_each_vs_addWords (words : list jsstring)
    (v : TrieVisualizer.TrieVisualizer) :
  TrieVisualizer.trie (addWord_each words v) =
    TrieVisualizer.trie (TrieVisualizer.addWords words v) ∧
  TrieVisualizer.renders (addWord_each words v) =
    (TrieVisualizer.renders v +
     length (filter (λ r, r = true)
               (Trie.insert_all words (TrieVisualizer.trie v)).2))%nat ∧
  (TrieVisualizer.renders (TrieVisualizer.addWords words v)
   ≤ TrieVisualizer.renders (addWord_each words v))%nat.
Proof.
  destruct (addWord_each_spec words v) as [Ht Hr]. rewrite Ht, Hr.
  unfold TrieVisualizer.addWords. rewrite insert_each_insert_all.
  destruct (Trie.insert_all words (TrieVisualizer.trie v)) as [t rs]. simpl.
  case_bool_decide as Hacc; simpl; repeat split; try done; [|lia].
  apply list_elem_of_split in Hacc as (l1 & l2 & ->).
  rewrite filter_app, filter_cons_True, length_app by done. simpl. lia.
Qed.

(** ** Highlights as an overlay *)

Lemma is_circle_set_second w ss :
  map TrieVisualizer.is_circle (TrieVisualizer.set_second_child_circle w ss) =
    map TrieVisualizer.is_circle ss.
Proof.
  unfold TrieVisualizer.set_second_child_circle.
  destruct ss as [|s1 [|[w2|] ss]]; done.
Qed.

Lemma unhighlight_set_second w ss :
  map unhighlight (TrieVisualizer.set_second_child_circle w ss) =
    map unhighlight ss.
Proof.
  unfold TrieVisualizer.set_second_child_circle.
  destruct ss as [|s1 [|[w2|] ss]]; done.
Qed.

Lemma unhighlight_idemp ss : map unhighlight (map unhighlight ss) = map unhighlight ss.
Proof. rewrite map_map. apply map_ext. by intros []. Qed.

Lemma is_circle_unhighlight ss :
  map TrieVisualizer.is_circle (map unhighlight ss) =
    map TrieVisualizer.is_circle ss.
Proof. rewrite map_map. apply map_ext. by intros []. Qed.

Lemma clearHighlights_eq (v : TrieVisualizer.TrieVisualizer) :
  TrieVisualizer.clearHighlights v =
    {| TrieVisualizer.trie := TrieVisualizer.trie v;
       TrieVisualizer.linkGroup :=
         map (λ p, {| Svg.link := Svg.link p; Svg.stroke_width := 2.5;
                      Svg.path_leaving := Svg.path_leaving p |})
           (TrieVisualizer.linkGroup v);
       TrieVisualizer.nodeGroup :=
         map (λ g, {| Svg.data := Svg.data g;
                      Svg.shapes := map unhighlight (Svg.shapes g);
                      Svg.leaving := Svg.leaving g |})
           (TrieVisualizer.nodeGroup v);
       TrieVisualizer.renders := TrieVisualizer.renders v |}.
Proof. done. Qed.

Lemma clearHighlights_highlightPath path (v : TrieVisualizer.TrieVisualizer) :
  TrieVisualizer.clearHighlights (TrieVisualizer.highlightPath path v) =
    TrieVisualizer.clearHighlights v.
Proof.
  unfold TrieVisualizer.highlightPath. rewrite !clearHighlights_eq. simpl.
  f_equal; rewrite !map_map; apply map_ext; intros x; simpl; [done|].
  by rewrite unhighlight_set_second, unhighlight_idemp.
Qed.

(** X11: highlighting is an overlay on the stroke widths.  [highlightPath]
    and [clearHighlights] change neither the trie nor the number of render
    passes, and they add, remove, reorder or rebind no element and no
    shape. *)
Theorem highlight_is_overlay (path : jsstring)
    (v : TrieVisualizer.TrieVisualizer) :
  without_widths (TrieVisualizer.highlightPath path v) = without_widths v ∧
  without_widths (TrieVisualizer.clearHighlights v) = without_widths v.
Proof.
  assert (without_widths (TrieVisualizer.clearHighlights v) = without_widths v)
    as Hclear.
  { rewrite clearHighlights_eq. unfold without_widths. simpl.
    f_equal; [f_equal|]; rewrite map_map; apply map_ext; intros x; simpl;
      [done|].
    by rewrite is_circle_unhighlight. }
  split; [|done]. rewrite <-Hclear.
  unfold TrieVisualizer.highlightPath, without_widths. simpl.
  f_equal; [f_equal|]; rewrite !map_map; apply map_ext; intros x; simpl;
    [done|].
  by rewrite is_circle_set_second.
Qed.

(** X12: highlights do not add up.  A [highlightPath] after another one, or
    after [clearHighlights], gives the scene it gives alone, and
    [clearHighlights] gives the same scene whether or not highlights were
    set before. *)
Theorem highlight_replaces (p q : jsstring) (v : TrieVisualizer.TrieVisualizer) :
  TrieVisualizer.highlightPath p (TrieVisualizer.highlightPath q v) =
    TrieVisualizer.highlightPath p v ∧
  TrieVisualizer.highlightPath p (TrieVisualizer.clearHighlights v) =
    TrieVisualizer.highlightPath p v ∧
  TrieVisualizer.clearHighlights (TrieVisualizer.highlightPath q v) =
    TrieVisualizer.clearHighlights v ∧
  TrieVisualizer.clearHighlights (TrieVisualizer.clearHighlights v) =
    TrieVisualizer.clearHighlights v.
Proof.
  assert (TrieVisualizer.clearHighlights (TrieVisualizer.clearHighlights v) =
          TrieVisualizer.clearHighlights v) as Hidem.
  { rewrite !clearHighlights_eq. simpl.
    f_equal; rewrite !map_map; apply map_ext; intros x; simpl; [done|].
    by rewrite unhighlight_idemp. }
  assert (∀ v1 v2, TrieVisualizer.clearHighlights v1 =
                   TrieVisualizer.clearHighlights v2 →
                   TrieVisualizer.highlightPath p v1 =
                   TrieVisualizer.highlightPath p v2) as Hvia.
  { intros v1 v2 Heq. unfold TrieVisualizer.highlightPath. by rewrite Heq. }
  repeat split; [| |apply clearHighlights_highlightPath|done].
  - apply Hvia, clearHighlights_highlightPath.
  - by apply Hvia.
Qed.

(** X13: the ids [highlightPath] collects are the id of the root and the
    non-empty prefixes of the path that end between two characters; the path
    itself is among them unless it is empty, and each of them other than the
    id of the root is a prefix of the path. *)
Theorem pathIds_prefixes (path : jsstring) :
  (∀ x, x ∈ TrieVisualizer.pathIds path ↔
        x = root_id ∨
        ∃ k, (0 < k ≤ length (chars path))%nat ∧
             x = concat (take k (chars path))) ∧
  (path ≠ [] → path ∈ TrieVisualizer.pathIds path) ∧
  (∀ x, x ∈ TrieVisualizer.pathIds path → x = root_id ∨ x `prefix_of` path) ∧
  TrieVisualizer.pathIds [] = {[root_id]}.
Proof.
  split; [apply elem_of_pathIds|]. split; [|split; [|done]].
  - intros Hne. apply elem_of_pathIds. right.
    exists (length (chars path)). split.
    + split; [|done]. destruct (chars path) eqn:Hc; simpl; [|lia].
      by apply chars_nil in Hc.
    + by rewrite firstn_all, concat_chars.
  - intros x [->|(k & _ & ->)]%elem_of_pathIds; [by left|]. right.
    rewrite <-(concat_chars path) at 2.
    rewrite <-(take_drop k (chars path)) at 2. rewrite concat_app.
    by eexists.
Qed.

(** ** The keyed join *)

Section join_props.
Context {E D : Type} (ekey : E → jsstring) (dkey : D → jsstring).

Lemma node_by_key_spec (els : list E) (i : nat) (m : gmap jsstring nat) :
  (∀ k1 k2 j, m !! k1 = Some j → m !! k2 = Some j → k1 = k2) →
  (∀ k j, m !! k = Some j → j < i)%nat →
  (∀ k1 k2 j, node_by_key ekey els i m !! k1 = Some j →
              node_by_key ekey els i m !! k2 = Some j → k1 = k2) ∧
  (∀ k j, node_by_key ekey els i m !! k = Some j →
          (j < i + length els)%nat ∧
          (m !! k = Some j ∨
           ∃ e, els !! (j - i)%nat = Some e ∧ (i ≤ j)%nat ∧ ekey e = k)).
Proof.
  revert i m. induction els as [|e els IH]; intros i m Hinj Hlt; simpl.
  - split; [done|]. intros k j Hk. split; [|by left].
    specialize (Hlt k j Hk). lia.
  - set (m1 := match m !! ekey e with
               | Some _ => m
               | None => <[ekey e := i]> m
               end).
    assert (∀ k j, m1 !! k = Some j →
              m !! k = Some j ∨ (j = i ∧ k = ekey e)) as Hm1.
    { intros k j. unfold m1. destruct (m !! ekey e); [by left|].
      rewrite lookup_insert. case_decide; [|by left].
      intros [= <-]. by right. }
    destruct (IH (S i) m1) as [IHinj IHlt].
    + intros k1 k2 j H1 H2.
      destruct (Hm1 _ _ H1) as [H1'|[-> ->]], (Hm1 _ _ H2) as [H2'|[? ->]];
        try done.
      * by eapply Hinj.
      * subst j. specialize (Hlt _ _ H1'). lia.
      * specialize (Hlt _ _ H2'). lia.
    + intros k j Hk. destruct (Hm1 _ _ Hk) as [Hk'|[-> _]]; [|lia].
      specialize (Hlt _ _ Hk'). lia.
    + split; [done|]. intros k j Hk. destruct (IHlt k j Hk) as [Hj Hwhere].
      split; [lia|]. destruct Hwhere as [Hk1|(e' & He' & Hle & Hkey)].
      * destruct (Hm1 _ _ Hk1) as [|[-> ->]]; [by left|]. right.
        exists e. by rewrite Nat.sub_diag.
      * right. exists e'. split; [|split; [lia|done]].
        replace (j - i)%nat with (S (j - S i)) by lia. done.
Qed.

Lemma bind_key_fst (data : list D) (m : gmap jsstring nat) :
  (λ s, s.1) <$> bind_key dkey data m = data.
Proof.
  revert m. induction data as [|d data IH]; intros m; simpl; [done|].
  destruct (m !! dkey d); simpl; by rewrite IH.
Qed.

Lemma bind_key_indices (data : list D) (m : gmap jsstring nat) :
  (∀ k1 k2 j, m !! k1 = Some j → m !! k2 = Some j → k1 = k2) →
  NoDup (omap snd (bind_key dkey data m)) ∧
  ∀ d j, (d, Some j) ∈ bind_key dkey data m → m !! dkey d = Some j.
Proof.
  revert m. induction data as [|d data IH]; intros m Hinj; simpl.
  - split; [constructor|]. intros d j Hin. by apply elem_of_nil in Hin.
  - destruct (m !! dkey d) as [i|] eqn:Hd.
    + destruct (IH (delete (dkey d) m)) as [IHn IHin].
      { intros k1 k2 j [_ H1]%lookup_delete_Some [_ H2]%lookup_delete_Some.
        by eapply Hinj. }
      split.
      * simpl. apply NoDup_cons. split; [|done].
        intros Hin. apply list_elem_of_omap in Hin as ([d' o] & Hin & Heq).
        simpl in Heq. subst o. apply IHin in Hin.
        apply lookup_delete_Some in Hin as [Hne Hin].
        apply Hne. by eapply Hinj.
      * intros d' j Hin. apply elem_of_cons in Hin as [[= -> ->]|Hin]; [done|].
        apply IHin in Hin. by apply lookup_delete_Some in Hin as [_ Hin].
    + destruct (IH m Hinj) as [IHn IHin]. split; [done|].
      intros d' j Hin. apply elem_of_cons in Hin as [[=]|Hin]. by apply IHin.
Qed.

Lemma concat_seq_insert (B C : nat → list D) (d : D) (i a len : nat) :
  (a ≤ i < a + len)%nat →
  (∀ j, j ≠ i → C j = B j) →
  C i ≡ₚ d :: B i →
  concat (map C (seq a len)) ≡ₚ d :: concat (map B (seq a len)).
Proof.
  revert a. induction len as [|len IH]; intros a Hi Hother Hat; [lia|].
  simpl. destruct (decide (a = i)) as [->|Hne].
  - assert (map C (seq (S i) len) = map B (seq (S i) len)) as ->.
    { apply map_ext_in. intros j Hj%in_seq. apply Hother. lia. }
    by rewrite Hat.
  - rewrite Hother by done. rewrite IH by (done || lia).
    by rewrite Permutation_middle.
Qed.

(** Every datum is in one place of the group after the join: before the
    element it is inserted before, on the element it is joined to, or at the
    end. *)
Lemma slots_placed (slots : list (D * option nat)) (n : nat) :
  (∀ j, j ∈ omap snd slots → j < n)%nat →
  concat (map (λ j, entering (λ d, d) (with_next slots) (Some j) ++
                    ((λ s, s.1) <$> filter (λ s, s.2 = Some j) slots))
            (seq 0 n))
  ++ entering (λ d, d) (with_next slots) None
  ≡ₚ (λ s, s.1) <$> slots.
Proof.
  induction slots as [|[d [i|]] slots IH]; intros Hlt.
  - simpl. rewrite app_nil_r. clear. induction (seq 0 n); simpl; [done|].
    done.
  - rewrite fmap_cons. simpl fst. rewrite <-IH; clear IH.
    2:{ intros j Hj. apply Hlt. simpl. by right. }
    change (with_next ((d, Some i) :: slots)) with
      ((d, Some i, @None nat) :: with_next slots).
    change (entering (λ d, d) ((d, Some i, None) :: with_next slots))
      with (entering (λ d : D, d) (with_next slots)).
    rewrite (concat_seq_insert
               (λ j, entering (λ d, d) (with_next slots) (Some j) ++
                     ((λ s, s.1) <$> filter (λ s, s.2 = Some j) slots))
               _ d i 0 n); [done| | |].
    + split; [lia|]. apply Hlt. simpl. left.
    + intros j Hne. rewrite filter_cons_False; [done|]. simpl. congruence.
    + rewrite filter_cons_True by done. rewrite fmap_cons. simpl.
      by rewrite Permutation_middle.
  - rewrite fmap_cons. simpl fst. rewrite <-IH; clear IH.
    2:{ intros j Hj. apply Hlt. by simpl. }
    change (with_next ((d, None) :: slots)) with
      ((d, @None nat, head (omap snd slots)) :: with_next slots).
    destruct (head (omap snd slots)) as [i|] eqn:Hhead.
    + apply head_Some_elem_of in Hhead.
      rewrite (concat_seq_insert
                 (λ j, entering (λ d, d) (with_next slots) (Some j) ++
                       ((λ s, s.1) <$> filter (λ s, s.2 = Some j) slots))
                 _ d i 0 n).
      * done.
      * split; [lia|]. apply Hlt. by simpl.
      * intros j Hne. rewrite filter_cons_False by done. simpl.
        rewrite decide_False; [done|]. congruence.
      * rewrite filter_cons_False by done. simpl.
        by rewrite decide_True by done.
    + assert (∀ j, entering (λ d, d) ((d, None, None) :: with_next slots) (Some j) =
                   entering (λ d : D, d) (with_next slots) (Some j)) as Hsame.
      { intros j. done. }
      rewrite (map_ext _ (λ j, entering (λ d, d) (with_next slots) (Some j) ++
                     ((λ s, s.1) <$> filter (λ s, s.2 = Some j) slots))).
      2:{ intros j. rewrite Hsame. by rewrite filter_cons_False by done. }
      simpl. by rewrite Permutation_middle.
Qed.

Lemma filter_index_unique (slots : list (D * option nat)) (i : nat) :
  NoDup (omap snd slots) →
  filter (λ s, s.2 = Some i) slots =
    option_list (head (filter (λ s, s.2 = Some i) slots)).
Proof.
  induction slots as [|[d [j|]] slots IH]; intros Hnd; [done| |].
  - simpl in Hnd. apply NoDup_cons in Hnd as [Hj Hnd].
    destruct (decide (j = i)) as [->|Hne].
    + rewrite filter_cons_True by done. simpl. f_equal.
      destruct (filter (λ s, s.2 = Some i) slots) as [|[d' o] l] eqn:Hf; [done|].
      assert ((d', o) ∈ filter (λ s, s.2 = Some i) slots) as Hin
        by (rewrite Hf; left).
      apply list_elem_of_filter in Hin as [Ho Hin]. simpl in Ho. subst o.
      destruct Hj. apply list_elem_of_omap. by exists (d', Some i).
    + rewrite filter_cons_False by (simpl; congruence). by apply IH.
  - rewrite filter_cons_False by done. by apply IH.
Qed.

Context (enter : D → E) (update : D → E → E) (exit : E → E).
Context (live : E → bool) (datum : E → D).
Context (live_enter : ∀ d, live (enter d) = true ∧ datum (enter d) = d).
Context (live_update : ∀ d e, live (update d e) = true ∧ datum (update d e) = d).
Context (live_exit : ∀ e, live (exit e) = false).

Lemma entering_cons {E'} (f : D → E') d o nxt
    (nexts : list (D * option nat * option nat)) next :
  entering f ((d, o, nxt) :: nexts) next =
    match o with
    | Some _ => []
    | None => if decide (nxt = next) then [f d] else []
    end ++ entering f nexts next.
Proof.
  unfold entering. destruct o; simpl; [done|]. by destruct (decide (nxt = next)).
Qed.

Lemma live_entering (nexts : list (D * option nat * option nat)) next :
  datum <$> filter (λ e, live e = true) (entering enter nexts next) =
    entering (λ d, d) nexts next.
Proof.
  induction nexts as [|[[d o] nxt] nexts IH]; [done|].
  rewrite !entering_cons, filter_app, fmap_app, IH. f_equal.
  destruct o; [done|]. destruct (decide (nxt = next)); [|done].
  destruct (live_enter d) as [Hl Hd].
  rewrite filter_cons_True by done. simpl. by rewrite Hd.
Qed.

Lemma live_blocks (g : nat → E → list E) (B : nat → list D) (els : list E) :
  (∀ i e, els !! i = Some e →
          datum <$> filter (λ e, live e = true) (g i e) = B i) →
  datum <$> filter (λ e, live e = true) (concat (imap g els)) =
    concat (map B (seq 0 (length els))).
Proof.
  revert g B. induction els as [|e els IH]; intros g B Hblock; [done|].
  rewrite imap_cons. simpl.
  rewrite filter_app, fmap_app, (Hblock 0%nat e) by done. f_equal.
  rewrite <-fmap_S_seq. change (map B (S <$> ?l)) with (map B (map S l)).
  rewrite map_map. apply IH. intros i e' He'. by apply (Hblock (S i)).
Qed.

(** The elements that stay after a join carry the data of the join, each
    datum once. *)
Lemma reconcile_live (els : list E) (data : list D) :
  datum <$> filter (λ e, live e = true)
              (reconcile ekey dkey enter update exit els data)
  ≡ₚ data.
Proof.
  unfold reconcile.
  set (slots := bind_key dkey data (node_by_key ekey els 0 ∅)).
  destruct (node_by_key_spec els 0 ∅) as [Hinj Hlt].
  { intros k1 k2 j. by rewrite lookup_empty. }
  { intros k j. by rewrite lookup_empty. }
  destruct (bind_key_indices data _ Hinj) as [Hnd Hin]. fold slots in Hnd, Hin.
  rewrite filter_app, fmap_app, live_entering.
  rewrite (live_blocks _
             (λ j, entering (λ d, d) (with_next slots) (Some j) ++
                   ((λ s, s.1) <$> filter (λ s, s.2 = Some j) slots))).
  - rewrite slots_placed; [by unfold slots; rewrite bind_key_fst|].
    intros j Hj. apply list_elem_of_omap in Hj as ([d o] & Hj & Ho).
    simpl in Ho. subst o. apply Hin, Hlt in Hj as [Hj _]. done.
  - intros i e He. rewrite filter_app, fmap_app, live_entering. f_equal.
    unfold joined. rewrite (filter_index_unique slots i Hnd).
    destruct (head (filter (λ s, s.2 = Some i) slots)) as [[d o]|]; simpl.
    + destruct (live_update d e) as [Hl Hd].
      rewrite filter_cons_True by done. simpl. by rewrite Hd.
    + by rewrite filter_cons_False by by rewrite live_exit.
Qed.

End join_props.

(** ** What a render pass draws *)

Lemma concat_merge_levels {A} (a b : list (list A)) :
  concat (merge_levels a b) ≡ₚ concat a ++ concat b.
Proof.
  revert b. induction a as [|x a IH]; intros [|y b]; simpl; try done.
  - by rewrite app_nil_r.
  - rewrite IH, <-!(assoc_L (++)). f_equiv. rewrite !(assoc_L (++)). f_equiv.
    apply Permutation_app_comm.
Qed.

Lemma concat_levels_children (q : option TrieHierarchyNode)
    (kids : list TrieHierarchyNode) :
  concat (foldr merge_levels [] (map (levels q) kids)) ≡ₚ
    concat (map (λ k, concat (levels q k)) kids).
Proof.
  induction kids as [|k kids IH]; [done|]. simpl.
  by rewrite concat_merge_levels, IH.
Qed.

Lemma levels_eq p h :
  concat (levels p h) =
    (p, h) :: concat (foldr merge_levels []
                        (map (levels (Some h)) (Hier.children h))).
Proof. by destruct h. Qed.

(** The breadth-first list of [descendants] has the nodes of [nodes]. *)
Lemma levels_nodes p h : map snd (concat (levels p h)) ≡ₚ nodes h.
Proof.
  revert p. induction h as [h IH] using TrieHierarchyNode_children_ind.
  intros p. rewrite levels_eq. generalize (Some h) as q. intros q.
  destruct h as [i c pa t ws kids]. simpl in *.
  f_equiv. rewrite concat_levels_children. clear p.
  induction IH as [|k kids Hk _ IHkids]; [done|]. simpl.
  by rewrite map_app, Hk, IHkids.
Qed.

(** Every entry below a node has its parent, of which it is a child. *)
Lemma levels_parents h q :
  h ∈ Hier.children q →
  Forall (λ e, ∃ s, e.1 = Some s ∧ e.2 ∈ Hier.children s)
    (concat (levels (Some q) h)).
Proof.
  revert q. induction h as [h IH] using TrieHierarchyNode_children_ind.
  intros q Hq. rewrite levels_eq. constructor; [by exists q|].
  rewrite concat_levels_children. rewrite Forall_forall in IH.
  enough (∀ kids, (∀ k, k ∈ kids → k ∈ Hier.children h) →
            Forall (λ e, ∃ s, e.1 = Some s ∧ e.2 ∈ Hier.children s)
              (concat (map (λ k, concat (levels (Some h) k)) kids))) as Hgen
    by by apply Hgen.
  intros kids Hkids. induction kids as [|k kids IHkids]; [constructor|]. simpl.
  apply Forall_app. split.
  - apply IH; apply Hkids; left.
  - apply IHkids. intros k' Hk'. apply Hkids. by right.
Qed.

Lemma links_targets h :
  Svg.target <$> links h ≡ₚ mjoin (nodes <$> Hier.children h) ∧
  Forall (λ l, Svg.target l ∈ Hier.children (Svg.source l)) (links h).
Proof.
  unfold links. rewrite levels_eq. simpl.
  assert (Forall (λ e, ∃ s, e.1 = Some s ∧ e.2 ∈ Hier.children s)
            (concat (foldr merge_levels []
                       (map (levels (Some h)) (Hier.children h))))) as Hall.
  { rewrite concat_levels_children.
    enough (∀ kids, (∀ k, k ∈ kids → k ∈ Hier.children h) →
              Forall (λ e, ∃ s, e.1 = Some s ∧ e.2 ∈ Hier.children s)
                (concat (map (λ k, concat (levels (Some h) k)) kids))) as Hgen
      by by apply Hgen.
    intros kids Hkids. induction kids as [|k kids IHkids]; [constructor|].
    simpl. apply Forall_app. split.
    - apply levels_parents, Hkids. left.
    - apply IHkids. intros k' Hk'. apply Hkids. by right. }
  assert (map snd (concat (foldr merge_levels []
                             (map (levels (Some h)) (Hier.children h))))
          ≡ₚ mjoin (nodes <$> Hier.children h)) as Hnodes.
  { pose proof (levels_nodes None h) as Hn. rewrite levels_eq in Hn.
    destruct h as [i c pa t ws kids]. simpl in *.
    by apply (inj (cons _)) in Hn. }
  rewrite <-Hnodes. clear Hnodes.
  induction Hall as [|[p n] l (s & Hs & Hin) _ [IH1 IH2]]; [done|].
  simpl in *. subst p. simpl. split; [by f_equiv|]. by constructor.
Qed.

Lemma add_ring_data g :
  Svg.data (TrieVisualizer.add_ring g) = Svg.data g ∧
  Svg.leaving (TrieVisualizer.add_ring g) = Svg.leaving g.
Proof. unfold TrieVisualizer.add_ring. by destruct (_ && _). Qed.

Lemma render_live (v : TrieVisualizer.TrieVisualizer) :
  let h := Trie.toHierarchy (TrieVisualizer.trie v) in
  let v' := TrieVisualizer.transitions_end (TrieVisualizer.render v) in
  Svg.data <$> TrieVisualizer.nodeGroup v' ≡ₚ nodes h ∧
  (λ p, Svg.target (Svg.link p)) <$> TrieVisualizer.linkGroup v'
    ≡ₚ mjoin (nodes <$> Hier.children h) ∧
  Forall (λ p, Svg.target (Svg.link p)
                 ∈ Hier.children (Svg.source (Svg.link p)))
    (TrieVisualizer.linkGroup v').
Proof.
  intros h v'.
  assert (Svg.data <$> TrieVisualizer.nodeGroup v' ≡ₚ descendants h) as Hn.
  { simpl.
    rewrite (list_filter_iff _ (λ g, negb (Svg.leaving g) = true))
      by (intros g; by destruct (Svg.leaving g)).
    apply (reconcile_live _ _ _ _ _ (λ g, negb (Svg.leaving g)) Svg.data).
    - intros d. unfold TrieVisualizer.enter_node.
      by destruct (add_ring_data
        {| Svg.data := d;
           Svg.shapes :=
             (if Hier.isTerminal d then [Svg.circle 2] else []) ++
             [Svg.circle (if bool_decide (Hier.id d = root_id) then 2 else 2.5);
              Svg.text];
           Svg.leaving := false |}) as [-> ->].
    - intros d g. unfold TrieVisualizer.update_node.
      by destruct (add_ring_data
        {| Svg.data := d; Svg.shapes := Svg.shapes g; Svg.leaving := false |})
        as [-> ->].
    - done. }
  assert (Svg.link <$> TrieVisualizer.linkGroup v' ≡ₚ links h) as Hl.
  { simpl.
    rewrite (list_filter_iff _ (λ p, negb (Svg.path_leaving p) = true))
      by (intros p; by destruct (Svg.path_leaving p)).
    by apply (reconcile_live _ _ _ _ _ (λ p, negb (Svg.path_leaving p)) Svg.link). }
  destruct (links_targets h) as [Ht Hs].
  split; [|split].
  - rewrite Hn. apply levels_nodes.
  - rewrite <-Ht, <-Hl, <-list_fmap_compose. done.
  - rewrite <-Hl in Hs. by apply Forall_fmap in Hs.
Qed.

(** X14: when the exit transitions have ended, the node layer after a
    render pass holds one [g] for each node of the export of the trie,
    bound to it, and the link layer one [path] for each node other than the
    root, bound to the link from its parent; and nothing else. *)
Theorem render_shows_trie (v : TrieVisualizer.TrieVisualizer) :
  let h := Trie.toHierarchy (TrieVisualizer.trie v) in
  let v' := TrieVisualizer.transitions_end (TrieVisualizer.render v) in
  Svg.data <$> TrieVisualizer.nodeGroup v' ≡ₚ nodes h ∧
  (λ p, Svg.target (Svg.link p)) <$> TrieVisualizer.linkGroup v'
    ≡ₚ mjoin (nodes <$> Hier.children h) ∧
  Forall (λ p, Svg.target (Svg.link p)
                 ∈ Hier.children (Svg.source (Svg.link p)))
    (TrieVisualizer.linkGroup v').
Proof. apply render_live. Qed.

(** X15: [clear()] empties the trie and, when the exit transitions have
    ended, leaves the diagram with the root alone, not leaving, and no link,
    whatever was drawn before. *)
Theorem clear_leaves_root (v : TrieVisualizer.TrieVisualizer) :
  let v' := TrieVisualizer.transitions_end (TrieVisualizer.clear v) in
  TrieVisualizer.trie v' = Trie.new ∧
  TrieVisualizer.renders v' = S (TrieVisualizer.renders v) ∧
  TrieVisualizer.linkGroup v' = [] ∧
  ∃ g, TrieVisualizer.nodeGroup v' = [g] ∧
       Svg.data g = Hier.mk root_id [] [] false [] [] ∧
       Svg.leaving g = false.
Proof.
  intros v'.
  destruct (render_live
              (TrieVisualizer.with_trie (Trie.clear (TrieVisualizer.trie v)) v))
    as (Hn & Hl & _).
  fold (TrieVisualizer.clear v) in Hn, Hl. fold v' in Hn, Hl.
  change (nodes _) with [Hier.mk root_id [] [] false [] []] in Hn.
  change (mjoin _) with (@nil TrieHierarchyNode) in Hl.
  apply Permutation_singleton_r in Hn. apply Permutation_nil_r in Hl.
  apply fmap_nil_inv in Hl.
  repeat split; try done.
  destruct (TrieVisualizer.nodeGroup v') as [|g [|g' l]] eqn:Hg;
    try discriminate Hn.
  exists g. injection Hn as Hd. repeat split; [done|].
  assert (g ∈ TrieVisualizer.nodeGroup v') as Hin by (rewrite Hg; left).
  simpl in Hin. by apply list_elem_of_filter in Hin as [? _].
Qed.

(** ** What a render pass keeps *)

Section join_old.
Context {E D : Type} (ekey : E → jsstring) (dkey : D → jsstring).
Context (enter : D → E) (update : D → E → E) (exit : E → E).

Lemma sublist_imap_concat (X : nat → list E) (c : nat → E → E) (els : list E) :
  imap c els `sublist_of` concat (imap (λ i e, X i ++ [c i e]) els).
Proof.
  revert X c. induction els as [|e els IH]; intros X c; [done|].
  rewrite !imap_cons. simpl. rewrite <-(assoc_L (++)).
  apply sublist_inserts_l. simpl. apply sublist_skip.
  apply (IH (X ∘ S) (c ∘ S)).
Qed.

Lemma Forall2_imap (R : E → E → Prop) (c : nat → E → E) (els : list E) :
  (∀ i e, els !! i = Some e → R e (c i e)) → Forall2 R els (imap c els).
Proof.
  revert c. induction els as [|e els IH]; intros c Hc; [constructor|].
  rewrite imap_cons. constructor; [by apply (Hc 0%nat)|].
  apply IH. intros i e' He'. by apply (Hc (S i)).
Qed.

(** A datum is joined to an element of its own key. *)
Lemma joined_key (els : list E) (data : list D) (i : nat) d e :
  joined (bind_key dkey data (node_by_key ekey els 0 ∅)) i = Some d →
  els !! i = Some e → dkey d = ekey e.
Proof.
  intros Hj He. unfold joined in Hj.
  destruct (head _) as [[d' o]|] eqn:Hhead; [|done].
  simpl in Hj. injection Hj as ->.
  apply head_Some_elem_of, list_elem_of_filter in Hhead as [Ho Hin].
  simpl in Ho. subst o.
  destruct (node_by_key_spec ekey els 0 ∅) as [Hinj Hlt].
  { intros k1 k2 j. by rewrite lookup_empty. }
  { intros k j. by rewrite lookup_empty. }
  apply (bind_key_indices dkey data _ Hinj) in Hin.
  destruct (Hlt _ _ Hin) as [_ [Hempty|(e' & He' & _ & Hkey)]].
  - by rewrite lookup_empty in Hempty.
  - rewrite Nat.sub_0_r, He in He'. by injection He' as <-.
Qed.

(** The elements of the group are all in the group after the join, in
    their order, each joined to a datum of its key or left to exit. *)
Lemma reconcile_old (R : E → E → Prop) (els : list E) (data : list D) :
  (∀ d e, dkey d = ekey e → R e (update d e)) →
  (∀ e, R e (exit e)) →
  ∃ l, l `sublist_of` reconcile ekey dkey enter update exit els data ∧
       Forall2 R els l.
Proof.
  intros Hupdate Hexit.
  exists (imap (λ i e,
            match joined (bind_key dkey data (node_by_key ekey els 0 ∅)) i with
            | Some d => update d e
            | None => exit e
            end) els).
  split.
  - unfold reconcile. apply sublist_inserts_r.
    apply (sublist_imap_concat
             (λ i, entering enter
                     (with_next (bind_key dkey data (node_by_key ekey els 0 ∅)))
                     (Some i))).
  - apply Forall2_imap. intros i e He.
    destruct (joined _ i) as [d|] eqn:Hj; [|done].
    apply Hupdate. by eapply joined_key.
Qed.

End join_old.

(** X16: a render pass removes nothing and restyles nothing.  Every link
    drawn before is still in the link layer, in the same order, under the
    same key and with the stroke width it had, so a highlight stays through
    a render pass; every node drawn before is still in the node layer under
    the same id, with the shapes it had or with these and a ring before the
    first circle. *)
Theorem render_keeps_strokes (v : TrieVisualizer.TrieVisualizer) :
  (∃ l, l `sublist_of` TrieVisualizer.linkGroup (TrieVisualizer.render v) ∧
        Forall2 (λ p p', Svg.stroke_width p' = Svg.stroke_width p ∧
                         TrieVisualizer.link_key (Svg.link p') =
                           TrieVisualizer.link_key (Svg.link p))
          (TrieVisualizer.linkGroup v) l) ∧
  (∃ l, l `sublist_of` TrieVisualizer.nodeGroup (TrieVisualizer.render v) ∧
        Forall2 (λ g g', Hier.id (Svg.data g') = Hier.id (Svg.data g) ∧
                         (Svg.shapes g' = Svg.shapes g ∨
                          Svg.shapes g' =
                            TrieVisualizer.insert_before_circle (Svg.circle 2)
                              (Svg.shapes g)))
          (TrieVisualizer.nodeGroup v) l).
Proof.
  split.
  - apply reconcile_old; [|done]. intros d p Hkey. by split.
  - apply reconcile_old; [|by intros g; split; [|left]].
    intros d g Hkey. unfold TrieVisualizer.update_node, TrieVisualizer.add_ring.
    simpl. destruct (_ && _); simpl; split; auto.
Qed.

(** ** The array [words] returned is a snapshot *)

Lemma call_keeps_held c w l :
  Store.separate w → l ∈ Store.held w →
  (∀ k a, c ≠ Store.Mutate k a) →
  Store.arrays (Store.call c w) !! l = Store.arrays w !! l ∧
  l ∈ Store.held (Store.call c w).
Proof.
  intros [[ws Hws] Hheld] Hl Hc. destruct (Hheld l Hl) as [[x Hx] Hne].
  destruct c as [word| | |k a]; simpl.
  - unfold Store.insert. destruct word as [|u rest]; [done|].
    destruct (insert_node _ _ _) as [root' []]; simpl; [|done].
    by rewrite lookup_alter_ne.
  - unfold Store.clear. simpl.
    pose proof (alloc_fresh [] (Store.arrays w)) as Hfresh. simpl in Hfresh.
    rewrite lookup_insert_ne by congruence. done.
  - unfold Store.words. simpl.
    pose proof (alloc_fresh (Store.read (Store._words (Store.this w))
                               (Store.arrays w)) (Store.arrays w)) as Hfresh.
    simpl in Hfresh. rewrite lookup_insert_ne by congruence.
    split; [done|]. apply elem_of_app. by left.
  - by destruct (Hc k a).
Qed.

Lemma call_separate_any c w :
  Store.separate w → Store.separate (Store.call c w).
Proof.
  intros Hsep.
  by destruct (call_separate c w
                 {| Trie.root := Store.root (Store.this w); Trie._words := [] |}
                 _ Hsep eq_refl eq_refl) as [? _].
Qed.

Lemma run_keeps_held cs w l :
  Store.separate w → l ∈ Store.held w →
  Forall (λ c, ∀ k a, c ≠ Store.Mutate k a) cs →
  Store.arrays (Store.run cs w) !! l = Store.arrays w !! l.
Proof.
  intros Hsep Hl Hcs. revert w Hsep Hl.
  induction Hcs as [|c cs Hc _ IH]; intros w Hsep Hl; [done|].
  change (Store.run (c :: cs) w) with (Store.run cs (Store.call c w)).
  destruct (call_keeps_held c w l Hsep Hl Hc) as [Heq Hl'].
  rewrite IH; [done| |done]. by apply call_separate_any.
Qed.

(** X17: the array [words] returns is a snapshot: whatever is inserted or
    cleared afterwards, and however often [words] is called again, it holds
    the words that were accepted when it was returned, as long as the caller
    does not write to an array. *)
Theorem words_snapshot (cs1 cs2 : list Store.Call)
    (Hcs2 : Forall (λ c, ∀ k a, c ≠ Store.Mutate k a) cs2) :
  let '(w1, l) := Store.words (Store.run cs1 Store.new) in
  Store.read l (Store.arrays (Store.run cs2 w1)) =
    Store.accepted cs1 Trie.new [].
Proof.
  destruct (run_separate cs1 Store.new Trie.new new_separate eq_refl)
    as [Hsep Hread].
  change (Store.read _ (Store.arrays Store.new)) with (@nil jsstring) in Hread.
  pose proof (call_separate_any Store.Words _ Hsep) as Hsep1.
  unfold Store.call in Hsep1.
  destruct (Store.words (Store.run cs1 Store.new)) as [w1 l] eqn:Hw.
  simpl in Hsep1. unfold Store.words in Hw. simpl in Hw.
  injection Hw as <- <-.
  unfold Store.read at 1. rewrite run_keeps_held; [|done| |done].
  - simpl. by rewrite lookup_insert_eq.
  - simpl. apply elem_of_app. right. by apply list_elem_of_singleton.
Qed.

Lemma words_snapshot_witness :
  let cs1 := [Store.Insert (lit "a")] in
  let cs2 := [Store.Insert (lit "b"); Store.Clear; Store.Words] in
  Forall (λ c, ∀ k a, c ≠ Store.Mutate k a) cs2 ∧
  let '(w1, l) := Store.words (Store.run cs1 Store.new) in
  Store.read l (Store.arrays (Store.run cs2 w1)) =
    Store.accepted cs1 Trie.new [].
Proof.
  assert (Forall (λ c, ∀ k a, c ≠ Store.Mutate k a)
            [Store.Insert (lit "b"); Store.Clear; Store.Words]) as Hcs2
    by (repeat constructor; discriminate).
  split; [exact Hcs2|].
  exact (words_snapshot [Store.Insert (lit "a")] _ Hcs2).
Defined.

(** ** The palette *)

(** X18: for each of the five roles [resolveColors] gives the value of the
    overrides if they have the role as a key (even with [undefined]);
    otherwise, in a document, the trimmed value of the custom property, or
    [undefined] if that is empty; the built-in default only where there is
    no document. *)
Theorem resolveColors_precedence (document : option (string → jsstring))
    (overrides : option Colors.obj) :
  Forall (λ '(role, prop),
    Colors.resolveColors document overrides !! role =
      match default ∅ overrides !! role with
      | Some value => Some value
      | None =>
          match document with
          | Some cs => Some (Colors.get cs prop)
          | None => Colors.DEFAULT_COLORS !! role
          end
      end) Colors.roles.
Proof.
  unfold Colors.resolveColors, Colors.spread, Colors.roles.
  repeat constructor; rewrite !lookup_union;
    destruct (default ∅ overrides !! _) as [value|]; simpl;
    rewrite ?(left_id_L None union); try done;
    by destruct document.
Qed.

Example resolveColors_cases :
  Colors.resolveColors None None = Colors.DEFAULT_COLORS ∧
  Colors.resolveColors (Some (λ _, [])) None !! "accent" = Some None ∧
  Colors.resolveColors (Some (λ _, lit "#123456"))
    (Some {[ "bg" := Some (lit "#000000") ]}) !! "accent"
    = Some (Some (lit "#123456")) ∧
  Colors.resolveColors (Some (λ _, lit "#123456"))
    (Some {[ "bg" := Some (lit "#000000") ]}) !! "bg"
    = Some (Some (lit "#000000")).
Proof. by vm_compute. Qed.

(** ** The widths after [highlightPath] *)

(** X19: after [highlightPath] a link has the stroke width 4 if the id of
    its target is one of the collected ids and 2.5 otherwise; a circle has 4
    if it is the second child of a [g] whose id is one of the collected ids,
    and 2.5 otherwise, wherever else in the [g] it is. *)
Theorem highlightPath_widths (path : jsstring)
    (v : TrieVisualizer.TrieVisualizer) :
  Forall (λ p, Svg.stroke_width p =
               if bool_decide (TrieVisualizer.link_key (Svg.link p)
                                 ∈ TrieVisualizer.pathIds path)
               then 4%Q else 2.5%Q)
    (TrieVisualizer.linkGroup (TrieVisualizer.highlightPath path v)) ∧
  Forall (λ g, ∀ (i : nat) w, Svg.shapes g !! i = Some (Svg.circle w) →
               w = if bool_decide (i = 1%nat ∧
                                   Hier.id (Svg.data g)
                                     ∈ TrieVisualizer.pathIds path)
                   then 4%Q else 2.5%Q)
    (TrieVisualizer.nodeGroup (TrieVisualizer.highlightPath path v)).
Proof.
  split.
  { simpl. rewrite Forall_fmap. apply Forall_fmap, Forall_true. done. }
  unfold TrieVisualizer.highlightPath. rewrite clearHighlights_eq. simpl.
  rewrite Forall_fmap. apply Forall_fmap, Forall_true.
  intros g i w. simpl.
  assert (∀ j w', map unhighlight (Svg.shapes g) !! j = Some (Svg.circle w') →
                  w' = 2.5%Q) as Hplain.
  { intros j w'. change (map unhighlight ?l) with (unhighlight <$> l).
    rewrite list_lookup_fmap. destruct (Svg.shapes g !! j) as [[w0|]|]; simpl;
      [by intros [= <-]|done|done]. }
  unfold TrieVisualizer.set_second_child_circle.
  destruct (map unhighlight (Svg.shapes g) !! 1%nat) as [[w1|]|] eqn:Hsecond.
  - rewrite list_lookup_insert. case_decide as Hi.
    + destruct Hi as [<- _]. intros [= <-].
      repeat case_bool_decide; try done; exfalso; intuition.
    + intros Hw. rewrite (Hplain _ _ Hw).
      rewrite bool_decide_eq_false_2; [done|]. intros [-> _]. apply Hi.
      split; [done|]. by eapply lookup_lt_Some.
  - intros Hw. rewrite (Hplain _ _ Hw).
    rewrite bool_decide_eq_false_2; [done|]. intros [-> _]. congruence.
  - intros Hw. rewrite (Hplain _ _ Hw).
    rewrite bool_decide_eq_false_2; [done|]. intros [-> _]. congruence.
Qed.

(** ** Which words are accepted *)

(** X20: on a reachable trie [insert] accepts a word exactly if it is not
    empty and not in the word list, and then appends it to the list. *)
Theorem insert_accepts_new_words (word : jsstring) (t : Trie.Trie)
    (Ht : reachable t) :
  ((Trie.insert word t).2 = true ↔ word ≠ [] ∧ word ∉ Trie.words t) ∧
  ((Trie.insert word t).2 = true →
     Trie.words (Trie.insert word t).1 = Trie.words t ++ [word]) ∧
  ((Trie.insert word t).2 = false →
     Trie.words (Trie.insert word t).1 = Trie.words t).
Proof.
  pose proof (insert_false_iff_in_words word t Ht) as Hfalse.
  rewrite words_insert. destruct (Trie.insert word t).2.
  - repeat split; try done; intros Hw; destruct Hfalse as [_ Hf];
      discriminate Hf; auto.
  - repeat split; try done. intros [Hne Hnin].
    destruct Hfalse as [[|] _]; done.
Qed.

Lemma insert_accepts_new_words_witness :
  let t := (Trie.insert (lit "cat") Trie.new).1 in
  reachable t ∧
  ((Trie.insert (lit "car") t).2 = true ↔
     lit "car" ≠ [] ∧ lit "car" ∉ Trie.words t) ∧
  ((Trie.insert (lit "car") t).2 = true →
     Trie.words (Trie.insert (lit "car") t).1 = Trie.words t ++ [lit "car"]) ∧
  ((Trie.insert (lit "car") t).2 = false →
     Trie.words (Trie.insert (lit "car") t).1 = Trie.words t).
Proof.
  assert (reachable (Trie.insert (lit "cat") Trie.new).1) as Hr
    by apply reach_insert, reach_new.
  split; [exact Hr|]. exact (insert_accepts_new_words (lit "car") _ Hr).
Defined.

(** X21: after a sequence of [insert] calls on a reachable trie the word
    list is the list before, followed by the words of the sequence that are
    not empty and were not in the list, each once, in the order in which
    they first come. *)
Theorem words_first_occurrences (ws : list jsstring) (t : Trie.Trie)
    (Ht : reachable t) :
  Trie.words (Trie.insert_all ws t).1 =
    Trie.words t ++ first_new (Trie.words t) ws ∧
  Trie.wordCount (Trie.insert_all ws t).1 =
    (Trie.wordCount t + length (first_new (Trie.words t) ws))%nat.
Proof.
  assert (Trie.words (Trie.insert_all ws t).1 =
          Trie.words t ++ first_new (Trie.words t) ws) as Hwords.
  { revert t Ht. induction ws as [|w ws IH]; intros t Ht; simpl.
    - by rewrite app_nil_r.
    - pose proof (insert_false_iff_in_words w t Ht) as Hfalse.
      pose proof (words_insert w t) as Hw.
      specialize (IH _ (reach_insert w t Ht)).
      destruct (Trie.insert w t) as [t1 r]. simpl in *.
      destruct (Trie.insert_all ws t1) as [t2 rs]. simpl in *.
      rewrite IH, Hw. destruct r.
      + rewrite decide_False.
        * by rewrite <-(assoc_L (++)).
        * intros Hin. by apply Hfalse in Hin.
      + rewrite decide_True; [done|]. by apply Hfalse. }
  split; [done|]. unfold Trie.wordCount.
  change (Trie._words ?x) with (Trie.words x). by rewrite Hwords, length_app.
Qed.

Lemma words_first_occurrences_witness :
  let ws := [lit "cat"; []; lit "car"; lit "cat"] in
  reachable Trie.new ∧
  Trie.words (Trie.insert_all ws Trie.new).1 =
    Trie.words Trie.new ++ first_new (Trie.words Trie.new) ws ∧
  Trie.wordCount (Trie.insert_all ws Trie.new).1 =
    (Trie.wordCount Trie.new + length (first_new (Trie.words Trie.new) ws))%nat.
Proof.
  split; [exact reach_new|].
  exact (words_first_occurrences [lit "cat"; []; lit "car"; lit "cat"]
           Trie.new reach_new).
Defined.
